(** * Colour quantization with ordered (Bayer) dithering

    A shallow embedding of [main.go]: the Bayer coefficient tables, the
    ditherer, the palette builder, the nearest-colour search, the colour
    arithmetic and the pipeline driver, followed by the properties the
    specification states about them and by further properties of the code
    (sorting, scaling, clamping, edge cases of the ditherer).

    Conventions of the embedding.
    - Go's [int] is a 64-bit two's complement integer: a [Z] whose sums,
      differences and products are wrapped by [GoInt.wrap].
    - [uint8] is a [Z] in [0, 256); sums of [uint8] are reduced modulo 256.
    - [float64] is Rocq's primitive binary64 [float]; every operation is
      rounded on its own (no fused multiply-add).
    - The conversion [uint8(f)] of a float truncates towards zero; where Go
      leaves its value to the implementation, it is a parameter.
    - A run-time panic is the [Panic] outcome of the [result] monad; the
      output of [fmt.Printf] is not modelled. *)

From Stdlib Require Import ZArith Lia List Bool Floats Uint63.
From stdpp Require Import base list sorting.

Local Open Scope Z_scope.

(** ** Machine integers *)

Module GoInt.

Definition min_int : Z := - 2 ^ 63.
Definition max_int : Z := 2 ^ 63 - 1.

(** Two's complement reduction of an unbounded integer to 64 bits. *)
Definition wrap (z : Z) : Z := (z + 2 ^ 63) mod 2 ^ 64 - 2 ^ 63.

Definition add (a b : Z) : Z := wrap (a + b).
Definition sub (a b : Z) : Z := wrap (a - b).
Definition mul (a b : Z) : Z := wrap (a * b).

Definition in_range (z : Z) : Prop := min_int <= z <= max_int.

End GoInt.

(** [uint8] arithmetic wraps modulo 256. *)
Definition wrap8 (z : Z) : Z := z mod 256.

(** ** Panics *)

Inductive panic : Type :=
| IndexOutOfRange
| DivideByZero
| HugeOrNegativeDimensions.

Inductive result (A : Type) : Type :=
| Ok (a : A)
| Panic (p : panic).
Arguments Ok {A} a.
Arguments Panic {A} p.

#[global] Instance result_ret : MRet result := fun A a => Ok a.
#[global] Instance result_bind : MBind result := fun A B f m =>
  match m with
  | Ok a => f a
  | Panic p => Panic p
  end.

(** [l[i]] on a slice: out of range is a panic. *)
Definition index {A : Type} (l : list A) (i : Z) : result A :=
  if i <? 0 then Panic IndexOutOfRange
  else match l !! Z.to_nat i with
       | Some a => Ok a
       | None => Panic IndexOutOfRange
       end.

(** [len(l)] *)
Definition len {A : Type} (l : list A) : Z := Z.of_nat (length l).

(** Integer division [a / b]: truncated, and a panic when [b] is zero. *)
Definition int_div (a b : Z) : result Z :=
  if b =? 0 then Panic DivideByZero else Ok (GoInt.wrap (Z.quot a b)).

(** [for i := lo; i < hi; i++ { s = body(i, s) }], stopping at the first panic. *)
Fixpoint for_each {S : Type} (l : list Z) (body : Z -> S -> result S) (s : S) : result S :=
  match l with
  | [] => Ok s
  | i :: l' => s' ← body i s; for_each l' body s'
  end.

Definition for_loop {S : Type} (lo hi : Z) (body : Z -> S -> result S) (s : S) : result S :=
  for_each (seqZ lo (hi - lo)) body s.

(** ** Floating point *)

(** [float64(z)] for an integer [z]: rounded to the nearest, ties to even. *)
Definition float64_of_int (z : Z) : float :=
  SF2Prim (binary_normalize prec emax z 0 false).

(** The integer part of a float (truncation towards zero); [None] for a NaN
    or an infinity. *)
Definition float64_trunc (f : float) : option Z :=
  match Prim2SF f with
  | S754_zero _ => Some 0
  | S754_finite s m e =>
      let a := if 0 <=? e then Z.shiftl (Z.pos m) e else Z.shiftr (Z.pos m) (- e) in
      Some (if s then - a else a)
  | S754_infinity _ | S754_nan => None
  end.

(** ** General functions *)

Definition ClampU8 (x low high : Z) : Z :=
  if x <? low then low
  else if x >? high then high
  else x.

Definition ClampF64 (x low high : float) : float :=
  if (x <? low)%float then low
  else if (high <? x)%float then high
  else x.

Definition ClampBelowInt (x low : Z) : Z :=
  if x <? low then low else x.

Definition ClampAboveInt (x high : Z) : Z :=
  if x >? high then high else x.

(** ** Colours *)

Record RGBA : Type := mkRGBA { R : Z; G : Z; B : Z; A : Z }.

Definition is_uint8 (z : Z) : Prop := 0 <= z < 256.

Definition wf_color (c : RGBA) : Prop :=
  is_uint8 (R c) /\ is_uint8 (G c) /\ is_uint8 (B c) /\ is_uint8 (A c).

(** ** Bayer matrix tables *)

Definition mat2 : list float := [0; 2; 3; 1]%float.

Definition mat4 : list float :=
  [ 0;  8;  2; 10;
   12;  4; 14;  6;
    3; 11;  1;  9;
   15;  7; 13;  5]%float.

Definition mat8 : list float :=
  [ 0; 32;  8; 40;  2; 34; 10; 42;
   48; 16; 56; 24; 50; 18; 58; 26;
   12; 44;  4; 36; 14; 46;  6; 38;
   60; 28; 52; 20; 62; 30; 54; 22;
    3; 35; 11; 43;  1; 33;  9; 41;
   51; 19; 59; 27; 49; 17; 57; 25;
   15; 47;  7; 39; 13; 45;  5; 37;
   63; 31; 55; 23; 61; 29; 53; 21]%float.

(** Only the orders 2, 4 and 8 have a table; any other order selects 8.
    Go's [%] is the truncated remainder [Z.rem]. *)
Definition BayerCoefficient (x y bayerMatSize : Z) : result float :=
  let bayerMatSize :=
    if negb (bayerMatSize =? 2) && negb (bayerMatSize =? 4) && negb (bayerMatSize =? 8)
    then 8 else bayerMatSize in
  let i := GoInt.add (GoInt.mul (Z.rem y bayerMatSize) bayerMatSize) (Z.rem x bayerMatSize) in
  coef ← (if bayerMatSize =? 2 then index mat2 i
          else if bayerMatSize =? 4 then index mat4 i
          else index mat8 i);
  let coef := (coef / float64_of_int (GoInt.mul bayerMatSize bayerMatSize))%float in
  let coef := (coef - 0.5)%float in
  Ok coef.

(** ** Nearest colour *)

(** Euclidean distance over R, G, B; alpha is ignored. *)
Definition ColorDistance (c1 c2 : RGBA) : float :=
  let dr := (float64_of_int (R c1) - float64_of_int (R c2))%float in
  let dr := (dr * dr)%float in
  let dg := (float64_of_int (G c1) - float64_of_int (G c2))%float in
  let dg := (dg * dg)%float in
  let db := (float64_of_int (B c1) - float64_of_int (B c2))%float in
  let db := (db * db)%float in
  PrimFloat.sqrt (dr + dg + db)%float.

Definition NearestColor (c : RGBA) (palette : list RGBA) : result RGBA :=
  p0 ← index palette 0;
  let minD := ColorDistance c p0 in
  let nearest := p0 in
  st ← for_loop 1 (len palette) (fun i st =>
          let '(minD, nearest) := st in
          p ← index palette i;
          let d := ColorDistance c p in
          if (d <? minD)%float then Ok (d, p) else Ok (minD, nearest))
        (minD, nearest);
  Ok (snd st).

(** ** Colour arithmetic *)

(** The channel sums are [uint8] sums: they are reduced modulo 256 before
    [ClampU8] sees them. *)
Definition Add (c1 c2 : RGBA) : RGBA :=
  mkRGBA (ClampU8 (wrap8 (R c1 + R c2)) 0 255)
         (ClampU8 (wrap8 (G c1 + G c2)) 0 255)
         (ClampU8 (wrap8 (B c1 + B c2)) 0 255)
         255.

(** ** Images *)

Record Rectangle : Type := mkRect { MinX : Z; MinY : Z; MaxX : Z; MaxY : Z }.

(** A source image: its bounds, and for every coordinate the four 32-bit
    values that [img.At(x, y).RGBA()] returns. *)
Record Image : Type := mkImage { Bounds : Rectangle; AtRGBA : Z -> Z -> Z * Z * Z * Z }.

(** The conversion [uint8(r)] of an unsigned 32-bit value keeps its low byte. *)
Definition PixelColor (img : Image) (x y : Z) : RGBA :=
  let '(r, g, b, a) := AtRGBA img x y in
  mkRGBA (wrap8 r) (wrap8 g) (wrap8 b) (wrap8 a).

(** The coordinates visited by
    [for y := Min.Y; y < Max.Y; y++ { for x := Min.X; x < Max.X; x++ {..} }]. *)
Definition raster (r : Rectangle) : list (Z * Z) :=
  y ← seqZ (MinY r) (MaxY r - MinY r);
  x ← seqZ (MinX r) (MaxX r - MinX r);
  [(x, y)].

(** [sort.SliceStable] with [less(i, j) = pixels[i].R < pixels[j].R]: the
    stable sort by ascending red channel, written as an insertion sort. *)
Fixpoint insert_by_R (c : RGBA) (l : list RGBA) : list RGBA :=
  match l with
  | [] => [c]
  | d :: l' => if R c <? R d then c :: d :: l' else d :: insert_by_R c l'
  end.

Definition sort_stable_by_R (l : list RGBA) : list RGBA :=
  foldl (fun acc c => insert_by_R c acc) [] l.

Definition RedSortedImagePixels (img : Image) : list RGBA :=
  let pixels := (fun p : Z * Z => PixelColor img p.1 p.2) <$> raster (Bounds img) in
  sort_stable_by_R pixels.

(** The output buffer [image.RGBA], kept as the log of the writes made to
    it, the newest first; a coordinate never written reads as the zero colour. *)
Record RGBAImage : Type := mkRGBAImage { Rect : Rectangle; Pix : list ((Z * Z) * RGBA) }.

Definition Dx (r : Rectangle) : Z := GoInt.sub (MaxX r) (MinX r).
Definition Dy (r : Rectangle) : Z := GoInt.sub (MaxY r) (MinY r).

(** The product of three integers, or -1 when one is negative or the
    product does not fit an [int]. *)
Definition mul3NonNeg (x y z : Z) : Z :=
  if (x <? 0) || (y <? 0) || (z <? 0) then -1
  else if 2 ^ 64 <=? x * y then -1
  else if 2 ^ 64 <=? x * y * z then -1
  else if GoInt.max_int <? x * y * z then -1
  else x * y * z.

Definition NewRGBA (r : Rectangle) : result RGBAImage :=
  if mul3NonNeg 4 (Dx r) (Dy r) <? 0 then Panic HugeOrNegativeDimensions
  else Ok (mkRGBAImage r []).

Definition In_rect (x y : Z) (r : Rectangle) : bool :=
  (MinX r <=? x) && (x <? MaxX r) && (MinY r <=? y) && (y <? MaxY r).

Definition RGBA_Set (img : RGBAImage) (x y : Z) (c : RGBA) : RGBAImage :=
  if In_rect x y (Rect img) then mkRGBAImage (Rect img) (((x, y), c) :: Pix img)
  else img.

Fixpoint last_write (log : list ((Z * Z) * RGBA)) (x y : Z) : option RGBA :=
  match log with
  | [] => None
  | ((x', y'), c) :: log' => if (x' =? x) && (y' =? y) then Some c else last_write log' x y
  end.

Definition RGBAAt (img : RGBAImage) (x y : Z) : RGBA :=
  if In_rect x y (Rect img) then
    match last_write (Pix img) x y with
    | Some c => c
    | None => mkRGBA 0 0 0 0
    end
  else mkRGBA 0 0 0 0.

(** ** The ditherer, the palette builder and the driver *)

Section Conversion.

(** Go leaves [uint8(f)] implementation-dependent when [f] is a NaN or an
    infinity, or when its integer part is not in [0, 255]: that value is a
    parameter of the embedding. *)
Variable uint8_unspecified : float -> Z.

Definition uint8_of_float64 (f : float) : Z :=
  match float64_trunc f with
  | Some z => if (0 <=? z) && (z <=? 255) then z else wrap8 (uint8_unspecified f)
  | None => wrap8 (uint8_unspecified f)
  end.

Definition BayerDithering (c : RGBA) (x y paletteSize bayerMatSize : Z) : result RGBA :=
  coef ← BayerCoefficient x y bayerMatSize;
  let R' := (255 / float64_of_int paletteSize)%float in
  let k := (R' * coef)%float in
  let r := (float64_of_int (R c) + k)%float in
  let g := (float64_of_int (G c) + k)%float in
  let b := (float64_of_int (B c) + k)%float in
  Ok (mkRGBA (uint8_of_float64 (ClampF64 r 0 255))
             (uint8_of_float64 (ClampF64 g 0 255))
             (uint8_of_float64 (ClampF64 b 0 255))
             255).

Definition MeanColorOfRange (pixels : list RGBA) (begin end_ : Z) : result RGBA :=
  acc ← for_loop begin end_ (fun j acc =>
           let '(r, g, b) := acc in
           p ← index pixels j;
           Ok ((r + float64_of_int (R p))%float,
               (g + float64_of_int (G p))%float,
               (b + float64_of_int (B p))%float))
         (0%float, 0%float, 0%float);
  let '(r, g, b) := acc in
  let n := float64_of_int (GoInt.sub end_ begin) in
  Ok (mkRGBA (uint8_of_float64 (r / n))
             (uint8_of_float64 (g / n))
             (uint8_of_float64 (b / n))
             255).

Definition PaletteFromImage (img : Image) (paletteMaxSize : Z) : result (list RGBA) :=
  let paletteMaxSize := ClampBelowInt paletteMaxSize 2 in
  let pixels := RedSortedImagePixels img in
  let estimatedPaletteSize := ClampAboveInt paletteMaxSize (len pixels) in
  bucketSize ← int_div (len pixels) estimatedPaletteSize;
  for_loop 0 estimatedPaletteSize (fun i palette =>
      let begin := GoInt.mul i bucketSize in
      let end_ := ClampAboveInt (GoInt.add begin bucketSize) (len pixels) in
      c ← MeanColorOfRange pixels begin end_;
      Ok (palette ++ [c]))
    [].

Definition QuantizeImage (img : Image) (paletteMaxSize bayerMatSize : Z) : result RGBAImage :=
  palette ← PaletteFromImage img paletteMaxSize;
  outImage ← NewRGBA (Bounds img);
  for_loop (MinY (Bounds img)) (MaxY (Bounds img)) (fun y outImage =>
      for_loop (MinX (Bounds img)) (MaxX (Bounds img)) (fun x outImage =>
          let c := PixelColor img x y in
          ditheredColor ← BayerDithering c x y (len palette) bayerMatSize;
          outColor ← NearestColor ditheredColor palette;
          Ok (RGBA_Set outImage x y outColor))
        outImage)
    outImage.

(** The colour that the driver computes for one coordinate. *)
Definition pixel_out (img : Image) (palette : list RGBA) (m x y : Z) : result RGBA :=
  d ← BayerDithering (PixelColor img x y) x y (len palette) m;
  NearestColor d palette.

End Conversion.


(** ** Colour scaling *)

Section Scaling.

Variable uint8_unspecified : float -> Z.

(** [lambda] is clamped to [0, 1]; a NaN passes both tests and is kept. *)
Definition ScalMult (lambda : float) (c : RGBA) : RGBA :=
  let lambda :=
    if (lambda <? 0)%float then 0%float
    else if (1 <? lambda)%float then 1%float
    else lambda in
  mkRGBA (uint8_of_float64 uint8_unspecified (lambda * float64_of_int (R c)))
         (uint8_of_float64 uint8_unspecified (lambda * float64_of_int (G c)))
         (uint8_of_float64 uint8_unspecified (lambda * float64_of_int (B c)))
         (A c).

Definition LinearGradient (s : float) (c1 : RGBA) (t : float) (c2 : RGBA) : RGBA :=
  let sc1 := ScalMult s c1 in
  let tc2 := ScalMult t c2 in
  Add sc1 tc2.

End Scaling.

(** ** Definitions used by the statements *)

(** The table that an order selects. *)
Definition bayer_table (N : Z) : list float :=
  if N =? 2 then mat2 else if N =? 4 then mat4 else mat8.

Definition supported_order (N : Z) : Prop := N = 2 \/ N = 4 \/ N = 8.

(** The coefficient read at a table index. *)
Definition coefficient_at (N i : Z) : result float :=
  t ← index (bayer_table N) i;
  Ok (t / float64_of_int (N * N) - 0.5)%float.

Definition coefficient_in_range (N i : Z) : bool :=
  match coefficient_at N i with
  | Ok c => ((-0.5) <=? c)%float && (c <? 0.5)%float
  | Panic _ => false
  end.

Definition pixelCount (img : Image) : Z :=
  Z.max 0 (MaxX (Bounds img) - MinX (Bounds img)) *
  Z.max 0 (MaxY (Bounds img) - MinY (Bounds img)).

Definition estimatedPaletteSize (img : Image) (k : Z) : Z :=
  ClampAboveInt (ClampBelowInt k 2) (len (RedSortedImagePixels img)).

(** [f i && f (i+1) && ... && f (i+n-1)] *)
Fixpoint all_below (n : nat) (f : int -> bool) (i : int) : bool :=
  match n with
  | O => true
  | S n' => if f i then all_below n' f (i + 1)%uint63 else false
  end.

Definition sqdist (c1 c2 : RGBA) : Z :=
  (R c1 - R c2) ^ 2 + (G c1 - G c2) ^ 2 + (B c1 - B c2) ^ 2.

Definition sqrt_of_int (n : Z) : float := PrimFloat.sqrt (float64_of_int n).

(** The square of a difference of two channel values is exact. *)
Definition square_diff_check (a : int) : bool :=
  all_below 256 (fun b =>
    let d := (of_uint63 a - of_uint63 b)%float in
    PrimFloat.Leibniz.eqb (d * d)%float
      (of_uint63 (if (a <=? b)%uint63 then ((b - a) * (b - a))%uint63
                  else ((a - b) * (a - b))%uint63))) 0%uint63.

(** The sum of three such squares is exact. *)
Definition sum_squares_check (i : int) : bool :=
  let a := of_uint63 (i * i) in
  all_below 256 (fun j =>
    let ab := (a + of_uint63 (j * j))%float in
    let n := (i * i + j * j)%uint63 in
    all_below 256 (fun l =>
      PrimFloat.Leibniz.eqb (ab + of_uint63 (l * l))%float
                            (of_uint63 (n + l * l))) 0%uint63) 0%uint63.

(** The rounded square root is strictly increasing on [0, 3 * 255^2]. *)
Definition sqrt_increasing_check (n : int) : bool :=
  let s := PrimFloat.sqrt (of_uint63 n) in
  (s <=? s)%float && (s <? PrimFloat.sqrt (of_uint63 (n + 1)))%float.

(** The linear scan of [NearestColor] over the entries after the first. *)
Fixpoint scan (c : RGBA) (l : list RGBA) (st : float * RGBA) : float * RGBA :=
  match l with
  | [] => st
  | p :: l' =>
      let d := ColorDistance c p in
      scan c l' (if (d <? fst st)%float then (d, p) else st)
  end.

(** [e] is the entry of index [i], no entry is nearer to [c], and every
    earlier entry is strictly farther. *)
Definition first_minimum (c : RGBA) (l : list RGBA) (i : nat) (e : RGBA) : Prop :=
  l !! i = Some e /\
  (forall j e', l !! j = Some e' -> sqdist c e <= sqdist c e') /\
  (forall j e', (j < i)%nat -> l !! j = Some e' -> sqdist c e < sqdist c e').

Definition SF_finite (x : spec_float) : bool :=
  match x with
  | S754_zero _ | S754_finite _ _ _ => true
  | S754_infinity _ | S754_nan => false
  end.

Definition SF_not_nan (x : spec_float) : bool :=
  match x with
  | S754_nan => false
  | _ => true
  end.

Definition channel_finite_check (v : Z) : bool := SF_finite (Prim2SF (float64_of_int v)).

Definition coefficient_finite_check (N i : Z) : bool :=
  match coefficient_at N i with
  | Ok c => SF_finite (Prim2SF c)
  | Panic _ => false
  end.

(** The clamped float of a channel is in [0, 255], and [out] is its
    integer part. *)
Definition channel_in_range (v : Z) (k : float) (out : Z) : Prop :=
  let f := ClampF64 (float64_of_int v + k)%float 0 255 in
  (0 <=? f)%float = true /\ (f <=? 255)%float = true /\
  float64_trunc f = Some out /\ 0 <= out <= 255.

(** The writes of one colour per coordinate, in the order of the list. *)
Definition writes_of (color : Z -> Z -> RGBA) (coords : list (Z * Z)) : list ((Z * Z) * RGBA) :=
  (fun p => (p, color p.1 p.2)) <$> coords.

Definition value_or_zero (r : result RGBA) : RGBA :=
  match r with
  | Ok c => c
  | Panic _ => mkRGBA 0 0 0 0
  end.

(** The pixels of an image in raster order, before they are sorted. *)
Definition raster_pixels (img : Image) : list RGBA :=
  (fun p : Z * Z => PixelColor img p.1 p.2) <$> raster (Bounds img).

(** Ascending red channel. *)
Definition le_R (a b : RGBA) : Prop := R a <= R b.

(** The colour with the alpha channel set to 255. *)
Definition opaque (c : RGBA) : RGBA := mkRGBA (R c) (G c) (B c) 255.

Definition same_rgb (a b : RGBA) : Prop := R a = R b /\ G a = G b /\ B a = B b.

(** The mean of a single channel value, computed as [MeanColorOfRange]
    does over a range of one pixel. *)
Definition mean_of_one_check (v : Z) : bool :=
  match float64_trunc ((0 + float64_of_int v) / float64_of_int 1)%float with
  | Some z => z =? v
  | None => false
  end.

(** The ranges on which [MeanColorOfRange] indexes outside the slice. *)
Definition range_leaves_slice (pixels : list RGBA) (b e : Z) : Prop :=
  b < e /\ (b < 0 \/ len pixels < e).

(** The products that [ScalMult] forms with a factor of zero, of either
    sign, and with the factor one. *)
Definition scale_by_zero_check (v : Z) : bool :=
  match float64_trunc (0 * float64_of_int v)%float,
        float64_trunc ((-0) * float64_of_int v)%float with
  | Some 0, Some 0 => true
  | _, _ => false
  end.

Definition scale_by_one_check (v : Z) : bool :=
  match float64_trunc (1 * float64_of_int v)%float with
  | Some z => z =? v
  | None => false
  end.

(** The integer part of a float, read on its specification. *)
Definition SF_trunc (x : spec_float) : option Z :=
  match x with
  | S754_zero _ => Some 0
  | S754_finite s m e =>
      let a := if 0 <=? e then Z.shiftl (Z.pos m) e else Z.shiftr (Z.pos m) (- e) in
      Some (if s then - a else a)
  | S754_infinity _ | S754_nan => None
  end.

(** The float of a channel value [v] is [v] itself: zero, or a mantissa
    [v * 2^(-e)] with an exponent [e] between -52 and -45. *)
Definition channel_float_check (v : Z) : bool :=
  match Prim2SF (float64_of_int v) with
  | S754_zero false => v =? 0
  | S754_finite false m e => (-52 <=? e) && (e <=? -45) && (Z.pos m =? v * 2 ^ (- e))
  | _ => false
  end.

(** With a palette size of zero the dithering step is [255 / 0 = +infinity]:
    the clamped channel is 0 under a negative coefficient, 255 under a
    positive one, and a NaN under the coefficient zero. *)
Definition zero_palette_check (N i v : Z) : bool :=
  match coefficient_at N i with
  | Ok coef =>
      let f := ClampF64 (float64_of_int v + 255 / float64_of_int 0 * coef)%float 0 255 in
      if (coef <? 0)%float then
        match float64_trunc f with Some z => z =? 0 | None => false end
      else if (0 <? coef)%float then
        match float64_trunc f with Some z => z =? 255 | None => false end
      else
        match Prim2SF f with S754_nan => true | _ => false end
  | Panic _ => false
  end.

(** The colour that [BayerDithering] returns for a palette size of zero. *)
Definition zero_palette_color (u : float -> Z) (coef : float) : RGBA :=
  if (coef <? 0)%float then mkRGBA 0 0 0 255
  else if (0 <? coef)%float then mkRGBA 255 255 255 255
  else mkRGBA (wrap8 (u nan)) (wrap8 (u nan)) (wrap8 (u nan)) 255.

(** *** Concrete inputs *)

(** An implementation whose unspecified conversions all give 0. *)
Definition uint8_zero : float -> Z := fun _ => 0.

(** The [RGBA()] values of an opaque 8-bit colour. *)
Definition rgb8 (r g b : Z) : Z * Z * Z * Z := (r * 257, g * 257, b * 257, 65535).

(** Five pixels in a row, with the red values 250, 10, 20, 30, 40. *)
Definition five_pixels : Image :=
  mkImage (mkRect 0 0 5 1) (fun x _ => if x =? 0 then rgb8 250 7 9 else rgb8 (10 * x) 7 9).

(** An image of width 0. *)
Definition empty_image : Image := mkImage (mkRect 0 0 0 8) (fun _ _ => rgb8 0 0 0).

(** One pixel at the coordinate (-1, 0). *)
Definition shifted_pixel : Image := mkImage (mkRect (-1) 0 0 1) (fun _ _ => rgb8 128 128 128).

Definition black : RGBA := mkRGBA 0 0 0 255.
Definition white : RGBA := mkRGBA 255 255 255 255.

(** ** Machine integers: facts *)

Lemma wrap_small z : GoInt.in_range z -> GoInt.wrap z = z.
Proof.
  unfold GoInt.in_range, GoInt.wrap, GoInt.min_int, GoInt.max_int. intros H.
  rewrite Z.mod_small by lia. lia.
Qed.

Lemma forallb_seqZ (f : Z -> bool) lo n :
  forallb f (seqZ lo n) = true -> forall z, lo <= z < lo + n -> f z = true.
Proof.
  intros H z Hz. rewrite forallb_forall in H. apply H.
  apply list_elem_of_In, elem_of_seqZ. lia.
Qed.

Lemma index_Ok {X : Type} (l : list X) i a :
  index l i = Ok a <-> 0 <= i /\ l !! Z.to_nat i = Some a.
Proof.
  unfold index. destruct (Z.ltb_spec i 0).
  - split; [discriminate | lia].
  - destruct (l !! Z.to_nat i); split; intros; try discriminate;
      try (split; [lia | congruence]); destruct H0; congruence.
Qed.

Lemma index_in_range {X : Type} (l : list X) i :
  0 <= i < len l -> exists a, index l i = Ok a /\ l !! Z.to_nat i = Some a.
Proof.
  intros Hi. unfold len in Hi.
  destruct (lookup_lt_is_Some_2 l (Z.to_nat i)) as [a Ha]; [lia|].
  exists a. split; [|done]. apply index_Ok. split; [lia | done].
Qed.

(** ** The Bayer coefficient *)

Lemma BayerCoefficient_nonneg x y N :
  supported_order N -> 0 <= x -> 0 <= y ->
  BayerCoefficient x y N = coefficient_at N (y mod N * N + x mod N).
Proof.
  intros HN Hx Hy. unfold BayerCoefficient, coefficient_at, bayer_table.
  assert (HN' : 0 < N <= 8) by (destruct HN as [->|[->| ->]]; lia).
  replace (negb (N =? 2) && negb (N =? 4) && negb (N =? 8)) with false
    by (destruct HN as [->|[->| ->]]; reflexivity).
  rewrite !Z.rem_mod_nonneg by lia.
  pose proof (Z.mod_pos_bound x N ltac:(lia)).
  pose proof (Z.mod_pos_bound y N ltac:(lia)).
  unfold GoInt.add, GoInt.mul.
  rewrite (wrap_small (y mod N * N)) by (unfold GoInt.in_range, GoInt.min_int, GoInt.max_int; nia).
  rewrite (wrap_small (y mod N * N + x mod N)) by (unfold GoInt.in_range, GoInt.min_int, GoInt.max_int; nia).
  rewrite (wrap_small (N * N)) by (unfold GoInt.in_range, GoInt.min_int, GoInt.max_int; nia).
  destruct HN as [->|[->| ->]]; reflexivity.
Qed.

Lemma coefficient_at_in_range N i :
  supported_order N -> 0 <= i < N * N -> coefficient_in_range N i = true.
Proof.
  intros HN Hi.
  destruct HN as [->|[->| ->]];
    [ apply (forallb_seqZ (coefficient_in_range 2) 0 4)
    | apply (forallb_seqZ (coefficient_in_range 4) 0 16)
    | apply (forallb_seqZ (coefficient_in_range 8) 0 64) ];
    try lia; vm_compute; reflexivity.
Qed.

(** C5 (amended): for a supported order and non-negative coordinates the
    coefficient is defined, is [table[(y mod N) * N + (x mod N)] / N^2 - 0.5]
    and lies in the half-open interval [-0.5, 0.5). *)
Theorem BayerCoefficient_range (x y N : Z) :
  supported_order N -> 0 <= x -> 0 <= y ->
  exists t coef,
    bayer_table N !! Z.to_nat (y mod N * N + x mod N) = Some t /\
    coef = (t / float64_of_int (N * N) - 0.5)%float /\
    BayerCoefficient x y N = Ok coef /\
    ((-0.5) <=? coef)%float = true /\ (coef <? 0.5)%float = true.
Proof.
  intros HN Hx Hy. rewrite BayerCoefficient_nonneg by assumption.
  assert (Hi : 0 <= y mod N * N + x mod N < N * N).
  { assert (0 < N) by (destruct HN as [->|[->| ->]]; lia).
    pose proof (Z.mod_pos_bound x N ltac:(lia)).
    pose proof (Z.mod_pos_bound y N ltac:(lia)). nia. }
  pose proof (coefficient_at_in_range N _ HN Hi) as Hc.
  unfold coefficient_in_range, coefficient_at in *.
  destruct (index (bayer_table N) (y mod N * N + x mod N)) as [t|] eqn:Ht; [|discriminate].
  apply index_Ok in Ht as [_ Ht]. cbn in Hc. apply andb_true_iff in Hc as [Hlo Hhi].
  exists t, (t / float64_of_int (N * N) - 0.5)%float. repeat split; assumption.
Qed.

Lemma BayerCoefficient_range_witness :
  exists t coef,
    bayer_table 4 !! Z.to_nat (6 mod 4 * 4 + 3 mod 4) = Some t /\
    coef = (t / float64_of_int (4 * 4) - 0.5)%float /\
    BayerCoefficient 3 6 4 = Ok coef /\
    ((-0.5) <=? coef)%float = true /\ (coef <? 0.5)%float = true.
Proof.
  apply (BayerCoefficient_range 3 6 4); [right; left; reflexivity | lia | lia].
Defined.

(** C5 (as stated) fails at a negative coordinate: the truncated remainder
    is negative there, the table index is -1 and the lookup panics. *)
Lemma BayerCoefficient_negative_coordinate :
  supported_order 2 /\ BayerCoefficient (-1) 0 2 = Panic IndexOutOfRange /\
  ~ (exists coef, BayerCoefficient (-1) 0 2 = Ok coef /\
       ((-0.5) <=? coef)%float = true /\ (coef <? 0.5)%float = true).
Proof.
  split; [left; reflexivity|]. split; [vm_compute; reflexivity|].
  intros [coef [H _]]. vm_compute in H. discriminate.
Qed.

(** C6 (amended): for a supported order, non-negative coordinates and sums
    that do not overflow, the coefficient has period [N] in x and in y. *)
Theorem BayerCoefficient_periodic (x y N : Z) :
  supported_order N -> 0 <= x -> 0 <= y ->
  x + N <= GoInt.max_int -> y + N <= GoInt.max_int ->
  BayerCoefficient (GoInt.add x N) y N = BayerCoefficient x y N /\
  BayerCoefficient x (GoInt.add y N) N = BayerCoefficient x y N.
Proof.
  intros HN Hx Hy Hxo Hyo.
  assert (0 < N) by (destruct HN as [->|[->| ->]]; lia).
  unfold GoInt.add.
  rewrite !wrap_small by (unfold GoInt.in_range, GoInt.min_int, GoInt.max_int in *; lia).
  rewrite !BayerCoefficient_nonneg by (assumption || lia).
  replace (x + N) with (x + 1 * N) by lia. replace (y + N) with (y + 1 * N) by lia.
  rewrite !Z.mod_add by lia. split; reflexivity.
Qed.

Lemma BayerCoefficient_periodic_witness :
  BayerCoefficient (GoInt.add 5 8) 3 8 = BayerCoefficient 5 3 8 /\
  BayerCoefficient 5 (GoInt.add 3 8) 8 = BayerCoefficient 5 3 8.
Proof.
  apply (BayerCoefficient_periodic 5 3 8);
    [right; right; reflexivity | lia | lia | vm_compute; discriminate | vm_compute; discriminate].
Defined.

(** C6 (as stated) fails at a negative coordinate: at x = -1 the lookup
    panics, one period later it succeeds. *)
Lemma BayerCoefficient_not_periodic :
  supported_order 2 /\
  BayerCoefficient (GoInt.add (-1) 2) 0 2 <> BayerCoefficient (-1) 0 2.
Proof.
  split; [left; reflexivity|]. vm_compute. discriminate.
Qed.

Lemma BayerCoefficient_coerce (x y m : Z) :
  m <> 2 -> m <> 4 -> m <> 8 ->
  BayerCoefficient x y m = BayerCoefficient x y 8.
Proof.
  intros H2 H4 H8. unfold BayerCoefficient.
  apply Z.eqb_neq in H2, H4, H8. rewrite H2, H4, H8. reflexivity.
Qed.

Lemma BayerCoefficient_defined (x y m : Z) :
  0 <= x -> 0 <= y -> exists coef, BayerCoefficient x y m = Ok coef.
Proof.
  intros Hx Hy.
  assert (Hs : forall N, supported_order N -> exists coef, BayerCoefficient x y N = Ok coef).
  { intros N HN. rewrite BayerCoefficient_nonneg by assumption.
    assert (Hi : 0 <= y mod N * N + x mod N < N * N).
    { assert (0 < N) by (destruct HN as [->|[->| ->]]; lia).
      pose proof (Z.mod_pos_bound x N ltac:(lia)).
      pose proof (Z.mod_pos_bound y N ltac:(lia)). nia. }
    pose proof (coefficient_at_in_range N _ HN Hi) as Hc.
    unfold coefficient_in_range in Hc.
    destruct (coefficient_at N (y mod N * N + x mod N)) as [c|]; [eauto | discriminate]. }
  destruct (Z.eq_dec m 2) as [->|H2]; [apply Hs; left; reflexivity|].
  destruct (Z.eq_dec m 4) as [->|H4]; [apply Hs; right; left; reflexivity|].
  destruct (Z.eq_dec m 8) as [->|H8]; [apply Hs; right; right; reflexivity|].
  rewrite BayerCoefficient_coerce by assumption. apply Hs. right; right; reflexivity.
Qed.

(** C7: an order other than 2, 4 and 8 behaves as the order 8 at every
    pair of coordinates, and is no error of its own: at non-negative
    coordinates a coefficient is returned. *)
Theorem BayerCoefficient_fallback (x y m : Z) :
  m <> 2 -> m <> 4 -> m <> 8 ->
  BayerCoefficient x y m = BayerCoefficient x y 8 /\
  (0 <= x -> 0 <= y -> exists coef, BayerCoefficient x y m = Ok coef).
Proof.
  intros H2 H4 H8. split; [apply BayerCoefficient_coerce; assumption|].
  apply BayerCoefficient_defined.
Qed.

Lemma BayerCoefficient_fallback_witness :
  BayerCoefficient 3 5 7 = BayerCoefficient 3 5 8 /\
  exists coef, BayerCoefficient 3 5 7 = Ok coef.
Proof.
  destruct (BayerCoefficient_fallback 3 5 7) as [H1 H2]; [lia | lia | lia |].
  split; [exact H1 | apply H2; lia].
Defined.

(** ** Loops *)

Lemma for_each_total {S : Type} (P : S -> Prop) (l : list Z) (body : Z -> S -> result S) s :
  P s ->
  (forall i s, i ∈ l -> P s -> exists s', body i s = Ok s' /\ P s') ->
  exists s', for_each l body s = Ok s' /\ P s'.
Proof.
  revert s. induction l as [|i l IH]; intros s Hs Hbody; simpl.
  - eauto.
  - destruct (Hbody i s) as [s1 [E1 H1]]; [left | assumption |].
    rewrite E1. cbn. apply IH; [assumption|].
    intros j s2 Hj. apply Hbody. by right.
Qed.

Lemma for_each_append {C : Type} (f : Z -> result C) (l : list Z) (acc : list C) :
  (forall i, i ∈ l -> exists c, f i = Ok c) ->
  exists cs, for_each l (fun i p => c ← f i; Ok (p ++ [c])) acc = Ok (acc ++ cs)
             /\ Forall2 (fun i c => f i = Ok c) l cs.
Proof.
  revert acc. induction l as [|i l IH]; intros acc Hf; simpl.
  - exists []. rewrite app_nil_r. split; [reflexivity | constructor].
  - destruct (Hf i) as [c Hc]; [left|]. rewrite Hc. cbn.
    destruct (IH (acc ++ [c])) as [cs [E HF]].
    { intros j Hj. apply Hf. by right. }
    exists (c :: cs). split; [|by constructor].
    rewrite E, <- app_assoc. reflexivity.
Qed.

(** ** The pixel sequence *)

Lemma length_insert_by_R c l : length (insert_by_R c l) = S (length l).
Proof.
  induction l as [|d l IH]; simpl; [reflexivity|].
  destruct (R c <? R d); simpl; congruence.
Qed.

Lemma length_sort_stable_by_R l : length (sort_stable_by_R l) = length l.
Proof.
  unfold sort_stable_by_R.
  enough (H : forall acc, length (foldl (fun acc c => insert_by_R c acc) acc l)
                          = (length acc + length l)%nat) by apply (H []).
  induction l as [|c l IH]; intros acc; simpl; [lia|].
  rewrite IH, length_insert_by_R. lia.
Qed.

Lemma length_bind_const {X Y : Type} (f : X -> list Y) (l : list X) (n : nat) :
  (forall x, length (f x) = n) -> length (l ≫= f) = (length l * n)%nat.
Proof.
  intros Hf. induction l as [|x l IH]; [reflexivity|].
  change ((x :: l) ≫= f) with (f x ++ (l ≫= f)).
  rewrite length_app, IH, Hf. simpl. lia.
Qed.

Lemma length_raster r :
  len (raster r) = Z.max 0 (MaxX r - MinX r) * Z.max 0 (MaxY r - MinY r).
Proof.
  unfold len, raster.
  rewrite (length_bind_const _ _ (Z.to_nat (MaxX r - MinX r))).
  - rewrite length_seqZ. lia.
  - intros y. rewrite (length_bind_const _ _ 1%nat) by reflexivity.
    rewrite length_seqZ. lia.
Qed.

Lemma len_RedSortedImagePixels img : len (RedSortedImagePixels img) = pixelCount img.
Proof.
  unfold RedSortedImagePixels, pixelCount. rewrite <- length_raster.
  unfold len. rewrite length_sort_stable_by_R, length_fmap. reflexivity.
Qed.

Lemma for_each_ext {S : Type} (l : list Z) (body1 body2 : Z -> S -> result S) s :
  (forall i s, i ∈ l -> body1 i s = body2 i s) ->
  for_each l body1 s = for_each l body2 s.
Proof.
  revert s. induction l as [|i l IH]; intros s H; simpl; [reflexivity|].
  rewrite H by left. destruct (body2 i s) as [s'|]; cbn; [|reflexivity].
  apply IH. intros j s2 Hj. apply H. by right.
Qed.

Lemma ClampBelowInt_max x low : ClampBelowInt x low = Z.max x low.
Proof. unfold ClampBelowInt. destruct (Z.ltb_spec x low); lia. Qed.

Lemma ClampAboveInt_min x high : ClampAboveInt x high = Z.min x high.
Proof. unfold ClampAboveInt. destruct (Z.gtb_spec x high); lia. Qed.

(** ** The palette builder *)

Section Palette.

Variable u : float -> Z.

Lemma MeanColorOfRange_total (pixels : list RGBA) (b e : Z) :
  0 <= b -> e <= len pixels ->
  exists c, MeanColorOfRange u pixels b e = Ok c /\ A c = 255.
Proof.
  intros Hb He. unfold MeanColorOfRange, for_loop.
  destruct (for_each_total (fun _ => True) (seqZ b (e - b))
              (fun j acc => let '(r, g, b0) := acc in
                            p ← index pixels j;
                            Ok ((r + float64_of_int (R p))%float,
                                (g + float64_of_int (G p))%float,
                                (b0 + float64_of_int (B p))%float))
              (0%float, 0%float, 0%float) I) as [[[r g] b'] [E _]].
  { intros j [[r g] b'] Hj _. apply elem_of_seqZ in Hj.
    destruct (index_in_range pixels j) as [p [Hp _]]; [lia|].
    rewrite Hp. cbn. eauto. }
  rewrite E. cbn. eauto.
Qed.

Lemma PaletteFromImage_buckets (img : Image) (k : Z) :
  1 <= pixelCount img <= GoInt.max_int ->
  let n := pixelCount img in
  let eps := estimatedPaletteSize img k in
  let bs := n / eps in
  eps = Z.min (Z.max k 2) n /\ 1 <= bs /\ eps * bs <= n /\
  exists palette,
    PaletteFromImage u img k = Ok palette /\
    Forall2 (fun i c => MeanColorOfRange u (RedSortedImagePixels img) (i * bs) (i * bs + bs) = Ok c)
            (seqZ 0 eps) palette.
Proof.
  intros Hn n eps bs.
  assert (Heps : eps = Z.min (Z.max k 2) n).
  { unfold eps, estimatedPaletteSize.
    rewrite len_RedSortedImagePixels, ClampAboveInt_min, ClampBelowInt_max. reflexivity. }
  assert (Heps1 : 1 <= eps <= n) by (fold n in Hn; lia).
  assert (Hbs : 1 <= bs).
  { unfold bs. apply Z.div_le_lower_bound; lia. }
  assert (Hmul : eps * bs <= n).
  { unfold bs. apply Z.mul_div_le. lia. }
  split; [assumption|]. split; [assumption|]. split; [assumption|].
  unfold PaletteFromImage. fold (estimatedPaletteSize img k). fold eps.
  rewrite len_RedSortedImagePixels. fold n.
  unfold int_div. destruct (Z.eqb_spec eps 0) as [?|_]; [lia|].
  rewrite Z.quot_div_nonneg by lia. fold bs.
  assert (Hmax : n <= GoInt.max_int) by (unfold n; lia).
  rewrite wrap_small by (unfold GoInt.in_range, GoInt.min_int, GoInt.max_int in *; nia).
  cbn. unfold for_loop. rewrite Z.sub_0_r.
  rewrite (for_each_ext _ _
    (fun i p => c ← MeanColorOfRange u (RedSortedImagePixels img) (i * bs) (i * bs + bs);
                Ok (p ++ [c]))).
  - apply for_each_append. intros i Hi. apply elem_of_seqZ in Hi.
    destruct (MeanColorOfRange_total (RedSortedImagePixels img) (i * bs) (i * bs + bs))
      as [c [Hc _]]; [nia | rewrite len_RedSortedImagePixels; fold n; nia | eauto].
  - intros i p Hi. apply elem_of_seqZ in Hi.
    unfold GoInt.add, GoInt.mul.
    rewrite (wrap_small (i * bs)) by (unfold GoInt.in_range, GoInt.min_int, GoInt.max_int in *; nia).
    rewrite (wrap_small (i * bs + bs)) by (unfold GoInt.in_range, GoInt.min_int, GoInt.max_int in *; nia).
    rewrite ClampAboveInt_min. replace (Z.min (i * bs + bs) n) with (i * bs + bs) by nia.
    reflexivity.
Qed.

(** C2 (amended): on an image with at least one pixel the palette has
    exactly [min (max k 2) pixelCount] entries. *)
Theorem PaletteFromImage_length (img : Image) (k : Z) :
  1 <= pixelCount img <= GoInt.max_int ->
  exists palette,
    PaletteFromImage u img k = Ok palette /\
    len palette = Z.min (Z.max k 2) (pixelCount img).
Proof.
  intros Hn. destruct (PaletteFromImage_buckets img k Hn) as (Heps & _ & _ & palette & E & HF).
  exists palette. split; [assumption|].
  apply Forall2_length in HF. unfold len. rewrite <- HF, length_seqZ, Heps. lia.
Qed.

(** C10: with at least one pixel the divisor is at least 1, every bucket
    lies inside the pixel slice and the palette is built without a panic;
    with no pixel the divisor is 0 and the division panics. *)
Theorem PaletteFromImage_total_iff_nonempty (img : Image) (k : Z) :
  pixelCount img <= GoInt.max_int ->
  (1 <= pixelCount img ->
     1 <= estimatedPaletteSize img k /\
     (forall bucketSize i,
        int_div (len (RedSortedImagePixels img)) (estimatedPaletteSize img k) = Ok bucketSize ->
        0 <= i < estimatedPaletteSize img k ->
        let begin := GoInt.mul i bucketSize in
        let end_ := ClampAboveInt (GoInt.add begin bucketSize) (len (RedSortedImagePixels img)) in
        0 <= begin /\ begin < end_ /\ end_ <= len (RedSortedImagePixels img)) /\
     exists palette, PaletteFromImage u img k = Ok palette) /\
  (pixelCount img = 0 ->
     estimatedPaletteSize img k = 0 /\
     int_div (len (RedSortedImagePixels img)) (estimatedPaletteSize img k) = Panic DivideByZero /\
     PaletteFromImage u img k = Panic DivideByZero).
Proof.
  intros Hmax. split.
  - intros H1.
    destruct (PaletteFromImage_buckets img k (conj H1 Hmax)) as (Heps & Hbs & Hmul & palette & E & _).
    split; [lia|]. split; [|eauto].
    intros bucketSize i Hdiv Hi. rewrite len_RedSortedImagePixels in *.
    unfold int_div in Hdiv.
    destruct (Z.eqb_spec (estimatedPaletteSize img k) 0) as [?|_]; [lia|].
    rewrite Z.quot_div_nonneg in Hdiv by lia.
    rewrite wrap_small in Hdiv
      by (unfold GoInt.in_range, GoInt.min_int, GoInt.max_int in *; nia).
    injection Hdiv as <-.
    set (bs := pixelCount img / estimatedPaletteSize img k) in *.
    unfold GoInt.add, GoInt.mul.
    rewrite (wrap_small (i * bs)) by (unfold GoInt.in_range, GoInt.min_int, GoInt.max_int in *; nia).
    rewrite (wrap_small (i * bs + bs)) by (unfold GoInt.in_range, GoInt.min_int, GoInt.max_int in *; nia).
    rewrite ClampAboveInt_min. cbn zeta. nia.
  - intros H0.
    assert (E0 : estimatedPaletteSize img k = 0).
    { unfold estimatedPaletteSize.
      rewrite len_RedSortedImagePixels, ClampAboveInt_min, ClampBelowInt_max. lia. }
    split; [assumption|].
    unfold PaletteFromImage. fold (estimatedPaletteSize img k). rewrite E0.
    split; reflexivity.
Qed.

End Palette.

(** ** Exhaustive checks over machine integers *)

Lemma of_Z_add a b : of_Z (a + b) = (of_Z a + of_Z b)%uint63.
Proof.
  apply to_Z_inj. rewrite Uint63.add_spec, !of_Z_spec. apply Zplus_mod.
Qed.

Lemma of_Z_mul a b : of_Z (a * b) = (of_Z a * of_Z b)%uint63.
Proof.
  apply to_Z_inj. rewrite Uint63.mul_spec, !of_Z_spec. apply Zmult_mod.
Qed.

Lemma to_Z_of_Z_small z : 0 <= z < wB -> to_Z (of_Z z) = z.
Proof. intros H. rewrite of_Z_spec. apply Z.mod_small. assumption. Qed.

Lemma all_below_spec (n : nat) (f : int -> bool) (i : int) :
  all_below n f i = true ->
  forall z, 0 <= z < Z.of_nat n -> f (i + of_Z z)%uint63 = true.
Proof.
  revert i. induction n as [|n IH]; intros i H z Hz; [lia|].
  simpl in H. destruct (f i) eqn:Hi; [|discriminate].
  destruct (Z.eq_dec z 0) as [->|Hz0].
  - replace (i + of_Z 0)%uint63 with i; [assumption|].
    apply to_Z_inj. rewrite Uint63.add_spec, of_Z_spec, Z.mod_0_l, Z.add_0_r by (compute; discriminate).
    symmetry. apply Z.mod_small, to_Z_bounded.
  - specialize (IH _ H (z - 1) ltac:(lia)).
    replace (i + of_Z z)%uint63 with (i + 1 + of_Z (z - 1))%uint63; [assumption|].
    apply to_Z_inj. rewrite !Uint63.add_spec, !of_Z_spec, to_Z_1.
    rewrite Zplus_mod_idemp_l, !Zplus_mod_idemp_r. f_equal. lia.
Qed.

Lemma all_below_0 (n : nat) (f : int -> bool) :
  all_below n f 0%uint63 = true ->
  forall z, 0 <= z < Z.of_nat n -> f (of_Z z) = true.
Proof.
  intros H z Hz. pose proof (all_below_spec n f 0%uint63 H z Hz) as E.
  replace (0 + of_Z z)%uint63 with (of_Z z) in E; [assumption|].
  apply to_Z_inj. rewrite Uint63.add_spec, to_Z_0, Z.add_0_l.
  symmetry. apply Z.mod_small, to_Z_bounded.
Qed.

(** ** Integers as floats *)

Lemma float64_of_int_to_Z (n : int) : float64_of_int (to_Z n) = of_uint63 n.
Proof.
  unfold float64_of_int. rewrite <- of_uint63_spec. apply SF2Prim_Prim2SF.
Qed.

Lemma float64_of_int_of_Z z : 0 <= z < wB -> float64_of_int z = of_uint63 (of_Z z).
Proof.
  intros H. rewrite <- float64_of_int_to_Z, to_Z_of_Z_small by assumption. reflexivity.
Qed.

Lemma square_diff_checked : all_below 256 square_diff_check 0%uint63 = true.
Proof. vm_compute. reflexivity. Qed.

Lemma sum_squares_checked : all_below 256 sum_squares_check 0%uint63 = true.
Proof. vm_compute. reflexivity. Qed.

Lemma sqrt_increasing_checked :
  all_below (Z.to_nat 195076) sqrt_increasing_check 0%uint63 = true.
Proof. vm_compute. reflexivity. Qed.

Lemma square_diff_exact a b :
  is_uint8 a -> is_uint8 b ->
  ((float64_of_int a - float64_of_int b) * (float64_of_int a - float64_of_int b))%float
  = float64_of_int ((a - b) ^ 2).
Proof.
  unfold is_uint8. intros Ha Hb.
  assert (HwB : wB = 2 ^ 63) by reflexivity.
  pose proof (all_below_0 _ _ square_diff_checked a ltac:(lia)) as H.
  unfold square_diff_check in H.
  pose proof (all_below_0 _ _ H b ltac:(lia)) as H'. cbv beta zeta in H'.
  apply FloatAxioms.Leibniz.eqb_spec in H'.
  rewrite (float64_of_int_of_Z a), (float64_of_int_of_Z b) by lia.
  rewrite H'. rewrite <- float64_of_int_to_Z. f_equal.
  assert (Ea : to_Z (of_Z a) = a) by (apply to_Z_of_Z_small; lia).
  assert (Eb : to_Z (of_Z b) = b) by (apply to_Z_of_Z_small; lia).
  destruct (of_Z a <=? of_Z b)%uint63 eqn:Hle.
  - apply Uint63.leb_spec in Hle. rewrite Ea, Eb in Hle.
    rewrite Uint63.mul_spec, !Uint63.sub_spec, Ea, Eb.
    rewrite (Z.mod_small (b - a)) by lia. rewrite Z.mod_small by nia. nia.
  - assert (Hgt : b < a).
    { destruct (Z.le_gt_cases a b) as [Hab|Hab]; [|assumption].
      rewrite <- Ea, <- Eb in Hab. apply Uint63.leb_spec in Hab. congruence. }
    rewrite Uint63.mul_spec, !Uint63.sub_spec, Ea, Eb.
    rewrite (Z.mod_small (a - b)) by lia. rewrite Z.mod_small by nia. nia.
Qed.

Lemma sum_squares_exact i j l :
  is_uint8 i -> is_uint8 j -> is_uint8 l ->
  (float64_of_int (i * i) + float64_of_int (j * j) + float64_of_int (l * l))%float
  = float64_of_int (i * i + j * j + l * l).
Proof.
  unfold is_uint8. intros Hi Hj Hl.
  assert (HwB : wB = 2 ^ 63) by reflexivity.
  pose proof (all_below_0 _ _ sum_squares_checked i ltac:(lia)) as H.
  unfold sum_squares_check in H. cbv zeta in H.
  pose proof (all_below_0 _ _ H j ltac:(lia)) as H'. cbv beta zeta in H'.
  pose proof (all_below_0 _ _ H' l ltac:(lia)) as H''. cbv beta in H''.
  apply FloatAxioms.Leibniz.eqb_spec in H''.
  rewrite !float64_of_int_of_Z by nia.
  rewrite !of_Z_add, !of_Z_mul. exact H''.
Qed.

Lemma ColorDistance_exact c1 c2 :
  wf_color c1 -> wf_color c2 -> ColorDistance c1 c2 = sqrt_of_int (sqdist c1 c2).
Proof.
  intros (Hr1 & Hg1 & Hb1 & _) (Hr2 & Hg2 & Hb2 & _).
  unfold ColorDistance, sqrt_of_int, sqdist. cbv zeta.
  rewrite !square_diff_exact by assumption. f_equal.
  assert (Habs : forall a b, is_uint8 a -> is_uint8 b ->
            (a - b) ^ 2 = Z.abs (a - b) * Z.abs (a - b) /\ is_uint8 (Z.abs (a - b))).
  { unfold is_uint8. intros a b Ha Hb. split; lia. }
  destruct (Habs _ _ Hr1 Hr2) as [-> ?], (Habs _ _ Hg1 Hg2) as [-> ?],
           (Habs _ _ Hb1 Hb2) as [-> ?].
  apply sum_squares_exact; assumption.
Qed.

Lemma square_diff_bounds a b : is_uint8 a -> is_uint8 b -> 0 <= (a - b) ^ 2 <= 65025.
Proof.
  unfold is_uint8. intros Ha Hb. rewrite Z.pow_2_r.
  assert (Hd : -255 <= a - b <= 255) by lia. revert Hd. generalize (a - b). intros d Hd.
  split; [apply Z.square_nonneg|].
  destruct (Z.le_gt_cases 0 d).
  - apply (Z.mul_le_mono_nonneg d 255 d 255); lia.
  - replace (d * d) with (- d * - d) by ring.
    apply (Z.mul_le_mono_nonneg (- d) 255 (- d) 255); lia.
Qed.

Lemma sqdist_bounds c1 c2 : wf_color c1 -> wf_color c2 -> 0 <= sqdist c1 c2 <= 195075.
Proof.
  unfold wf_color, sqdist. intros (Hr1 & Hg1 & Hb1 & _) (Hr2 & Hg2 & Hb2 & _).
  pose proof (square_diff_bounds _ _ Hr1 Hr2).
  pose proof (square_diff_bounds _ _ Hg1 Hg2).
  pose proof (square_diff_bounds _ _ Hb1 Hb2). lia.
Qed.

Lemma sqrt_of_int_step n :
  0 <= n <= 195075 ->
  (sqrt_of_int n <=? sqrt_of_int n)%float = true /\
  (sqrt_of_int n <? sqrt_of_int (n + 1))%float = true.
Proof.
  intros Hn. assert (HwB : wB = 2 ^ 63) by reflexivity.
  pose proof (all_below_0 _ _ sqrt_increasing_checked n ltac:(lia)) as H.
  unfold sqrt_increasing_check in H. cbv zeta in H. apply andb_true_iff in H.
  unfold sqrt_of_int. rewrite !float64_of_int_of_Z by lia.
  rewrite of_Z_add. exact H.
Qed.

(** ** The order of floats *)

Lemma SFltb_irrefl x : SFltb x x = false.
Proof.
  unfold SFltb, SFcompare. destruct x as [s|s| |s m e]; try destruct s; try reflexivity;
    rewrite Z.compare_refl; change (Pos.compare_cont Eq m m) with (Pos.compare m m);
    rewrite Pos.compare_refl; reflexivity.
Qed.

Lemma SFltb_trans x y z : SFltb x y = true -> SFltb y z = true -> SFltb x z = true.
Proof.
  unfold SFltb, SFcompare.
  destruct x as [sx|sx| |sx mx ex], y as [sy|sy| |sy my ey], z as [sz|sz| |sz mz ez];
    try destruct sx; try destruct sy; try destruct sz; try discriminate; try reflexivity;
    change (Pos.compare_cont Eq) with Pos.compare;
    destruct (Z.compare_spec ex ey), (Z.compare_spec ey ez), (Z.compare_spec ex ez);
    try discriminate; try reflexivity; try lia; subst;
    destruct (Pos.compare_spec mx my), (Pos.compare_spec my mz), (Pos.compare_spec mx mz);
    try discriminate; try reflexivity; lia.
Qed.

Lemma SFltb_SFleb x y : SFltb x y = true -> SFleb x y = true.
Proof.
  unfold SFltb, SFleb. destruct (SFcompare x y) as [[]|]; try discriminate; reflexivity.
Qed.

Lemma ltb_trans (x y z : float) :
  (x <? y)%float = true -> (y <? z)%float = true -> (x <? z)%float = true.
Proof. rewrite !FloatAxioms.ltb_spec. apply SFltb_trans. Qed.

Lemma ltb_irrefl (x : float) : (x <? x)%float = false.
Proof. rewrite FloatAxioms.ltb_spec. apply SFltb_irrefl. Qed.

Lemma ltb_leb (x y : float) : (x <? y)%float = true -> (x <=? y)%float = true.
Proof. rewrite FloatAxioms.ltb_spec, FloatAxioms.leb_spec. apply SFltb_SFleb. Qed.

Lemma sqrt_of_int_increasing n m :
  0 <= n -> n < m -> m <= 195076 ->
  (sqrt_of_int n <? sqrt_of_int m)%float = true.
Proof.
  intros Hn Hnm Hm.
  replace m with (n + 1 + Z.of_nat (Z.to_nat (m - n - 1))) by lia.
  assert (Hk : n + 1 + Z.of_nat (Z.to_nat (m - n - 1)) <= 195076) by lia.
  revert Hk. generalize (Z.to_nat (m - n - 1)) as k. induction k as [|k IH]; intros Hk.
  - rewrite Z.add_0_r. apply sqrt_of_int_step. lia.
  - apply ltb_trans with (sqrt_of_int (n + 1 + Z.of_nat k)); [apply IH; lia|].
    replace (n + 1 + Z.of_nat (S k)) with (n + 1 + Z.of_nat k + 1) by lia.
    apply sqrt_of_int_step. lia.
Qed.

Lemma sqrt_of_int_ltb n m :
  0 <= n <= 195075 -> 0 <= m <= 195075 ->
  (sqrt_of_int n <? sqrt_of_int m)%float = (n <? m).
Proof.
  intros Hn Hm. destruct (Z.ltb_spec n m) as [Hlt|Hge].
  - apply sqrt_of_int_increasing; lia.
  - destruct (Z.eq_dec n m) as [->|Hne]; [apply ltb_irrefl|].
    destruct (sqrt_of_int n <? sqrt_of_int m)%float eqn:E; [|reflexivity].
    assert (E' : (sqrt_of_int m <? sqrt_of_int n)%float = true)
      by (apply sqrt_of_int_increasing; lia).
    pose proof (ltb_trans _ _ _ E E') as F. rewrite ltb_irrefl in F. discriminate.
Qed.

Lemma sqrt_of_int_leb n m :
  0 <= n <= 195075 -> 0 <= m <= 195075 -> n <= m ->
  (sqrt_of_int n <=? sqrt_of_int m)%float = true.
Proof.
  intros Hn Hm Hle. destruct (Z.eq_dec n m) as [->|Hne].
  - apply sqrt_of_int_step. lia.
  - apply ltb_leb, sqrt_of_int_increasing; lia.
Qed.

(** ** The nearest colour *)

Lemma index_middle {X : Type} (pre : list X) (p : X) (rest : list X) :
  index (pre ++ p :: rest) (len pre) = Ok p.
Proof.
  apply index_Ok. unfold len. split; [lia|].
  rewrite Nat2Z.id. apply list_lookup_middle. reflexivity.
Qed.

Lemma for_each_scan c (rest pre : list RGBA) (st : float * RGBA) :
  for_each (seqZ (len pre) (len rest))
    (fun i st => let '(minD, nearest) := st in
                 p ← index (pre ++ rest) i;
                 let d := ColorDistance c p in
                 if (d <? minD)%float then Ok (d, p) else Ok (minD, nearest)) st
  = Ok (scan c rest st).
Proof.
  revert pre st. induction rest as [|p rest IH]; intros pre [minD nearest]; [reflexivity|].
  replace (len (p :: rest)) with (Z.succ (len rest)) by (unfold len; simpl length; lia).
  rewrite seqZ_cons by (unfold len; lia). rewrite Z.pred_succ.
  cbn [for_each]. rewrite index_middle. cbn [mbind result_bind].
  specialize (IH (pre ++ [p])).
  replace (len (pre ++ [p])) with (Z.succ (len pre)) in IH
    by (unfold len; rewrite length_app; simpl length; lia).
  rewrite <- app_assoc in IH. cbn [app] in IH.
  cbn [scan fst]. destruct (ColorDistance c p <? minD)%float; apply IH.
Qed.

Lemma NearestColor_scan c p0 rest :
  NearestColor c (p0 :: rest) = Ok (snd (scan c rest (ColorDistance c p0, p0))).
Proof.
  unfold NearestColor, for_loop.
  change (index (p0 :: rest) 0) with (Ok (A:=RGBA) p0). cbn [mbind result_bind].
  replace (len (p0 :: rest) - 1) with (len rest) by (unfold len; simpl length; lia).
  change 1 with (len [p0]). change (p0 :: rest) with ([p0] ++ rest).
  rewrite for_each_scan. reflexivity.
Qed.

Lemma scan_first_minimum c rest pre n i :
  wf_color c -> Forall wf_color pre -> Forall wf_color rest ->
  first_minimum c pre i n ->
  exists i' e, snd (scan c rest (sqrt_of_int (sqdist c n), n)) = e /\
               first_minimum c (pre ++ rest) i' e.
Proof.
  intros Hc. revert pre n i. induction rest as [|p rest IH]; intros pre n i Hpre Hrest Hmin.
  - exists i, n. rewrite app_nil_r. split; [reflexivity | assumption].
  - apply Forall_cons in Hrest as [Hp Hrest].
    destruct Hmin as (Hi & Hle & Hlt).
    assert (Hn : wf_color n).
    { rewrite Forall_forall in Hpre. apply Hpre. eapply list_elem_of_lookup_2, Hi. }
    pose proof (sqdist_bounds c n Hc Hn). pose proof (sqdist_bounds c p Hc Hp).
    cbn [scan fst]. rewrite (ColorDistance_exact c p Hc Hp), sqrt_of_int_ltb by assumption.
    replace (pre ++ p :: rest) with ((pre ++ [p]) ++ rest) by (rewrite <- app_assoc; reflexivity).
    assert (Hpre' : Forall wf_color (pre ++ [p])) by (apply Forall_app; split; [assumption | by constructor]).
    destruct (Z.ltb_spec (sqdist c p) (sqdist c n)) as [Hnew|Hold].
    + apply (IH (pre ++ [p]) p (length pre) Hpre' Hrest). repeat split.
      * apply list_lookup_middle. reflexivity.
      * intros j e' Hj. apply lookup_app_Some in Hj as [Hj|[Hge Hj]].
        -- specialize (Hle _ _ Hj). lia.
        -- apply list_lookup_singleton_Some in Hj as [_ <-]. lia.
      * intros j e' Hjl Hj. rewrite lookup_app_l in Hj by assumption.
        specialize (Hle _ _ Hj). lia.
    + apply (IH (pre ++ [p]) n i Hpre' Hrest). repeat split.
      * apply lookup_app_l_Some. assumption.
      * intros j e' Hj. apply lookup_app_Some in Hj as [Hj|[Hge Hj]].
        -- apply (Hle _ _ Hj).
        -- apply list_lookup_singleton_Some in Hj as [_ <-]. lia.
      * intros j e' Hjl Hj. apply lookup_lt_Some in Hi.
        rewrite lookup_app_l in Hj by lia. apply (Hlt _ _ Hjl Hj).
Qed.

(** C4: on a non-empty palette [NearestColor] returns an entry of the
    palette: the first one, in scan order, whose Euclidean distance to [c]
    over R, G, B is minimal. The distance the code computes is the rounded
    square root of the exact squared distance, and it orders the entries
    as the exact distance does. *)
Theorem NearestColor_first_minimum (c : RGBA) (palette : list RGBA) :
  wf_color c -> Forall wf_color palette -> palette <> [] ->
  exists i e,
    NearestColor c palette = Ok e /\
    palette !! i = Some e /\
    (forall j e', palette !! j = Some e' ->
       ColorDistance c e' = sqrt_of_int (sqdist c e') /\
       sqdist c e <= sqdist c e' /\
       (ColorDistance c e <=? ColorDistance c e')%float = true) /\
    (forall j e', (j < i)%nat -> palette !! j = Some e' ->
       sqdist c e < sqdist c e' /\
       (ColorDistance c e <? ColorDistance c e')%float = true).
Proof.
  intros Hc Hpal Hne. destruct palette as [|p0 rest]; [congruence|].
  apply Forall_cons in Hpal as [Hp0 Hrest].
  rewrite NearestColor_scan, (ColorDistance_exact c p0 Hc Hp0).
  destruct (scan_first_minimum c rest [p0] p0 0%nat Hc) as (i & e & He & Hi & Hle & Hlt).
  { by constructor. }
  { assumption. }
  { repeat split; [|intros j e' Hj; lia].
    intros j e' Hj. apply list_lookup_singleton_Some in Hj as [_ <-]. lia. }
  cbn [app] in *. exists i, e. rewrite He.
  assert (Hall : Forall wf_color (p0 :: rest)) by (by constructor).
  assert (He_wf : wf_color e).
  { rewrite Forall_forall in Hall. apply Hall. eapply list_elem_of_lookup_2, Hi. }
  pose proof (sqdist_bounds c e Hc He_wf).
  split; [reflexivity|]. split; [assumption|]. split.
  - intros j e' Hj.
    assert (He'_wf : wf_color e').
    { rewrite Forall_forall in Hall. apply Hall. eapply list_elem_of_lookup_2, Hj. }
    pose proof (sqdist_bounds c e' Hc He'_wf). specialize (Hle _ _ Hj).
    rewrite !ColorDistance_exact by assumption.
    split; [reflexivity|]. split; [assumption|]. apply sqrt_of_int_leb; assumption.
  - intros j e' Hji Hj.
    assert (He'_wf : wf_color e').
    { rewrite Forall_forall in Hall. apply Hall. eapply list_elem_of_lookup_2, Hj. }
    pose proof (sqdist_bounds c e' Hc He'_wf). specialize (Hlt _ _ Hji Hj).
    rewrite !ColorDistance_exact by assumption.
    split; [assumption|]. rewrite sqrt_of_int_ltb by assumption. lia.
Qed.

(** ** Facts on the IEEE 754 specification of [float] *)

Lemma fexp_eq x : fexp prec emax x = Z.max (x - 53) (-1074).
Proof. reflexivity. Qed.

Lemma digits2_pos_size p : digits2_pos p = Pos.size p.
Proof. induction p as [p IH|p IH|]; simpl; congruence. Qed.

Lemma Zdigits2_log2 p : Zdigits2 (Z.pos p) = Z.log2 (Z.pos p) + 1.
Proof.
  unfold Zdigits2. rewrite digits2_pos_size.
  destruct p as [p|p|]; simpl; rewrite ?Pos2Z.inj_succ; try lia.
Qed.

Lemma Zdigits2_nonneg z : 0 <= Zdigits2 z.
Proof. destruct z; simpl; lia. Qed.

Lemma Zdigits2_le a b : 0 <= a <= b -> Zdigits2 a <= Zdigits2 b.
Proof.
  intros [Ha Hab]. destruct a as [|a|a]; [apply Zdigits2_nonneg| |lia].
  destruct b as [|b|b]; try lia. rewrite !Zdigits2_log2.
  pose proof (Z.log2_le_mono (Z.pos a) (Z.pos b) Hab). lia.
Qed.

Lemma Zdigits2_succ a : 0 <= a -> Zdigits2 (a + 1) <= Zdigits2 a + 1.
Proof.
  intros Ha. destruct a as [|a|a]; [simpl; lia| |lia].
  change (Z.pos a + 1) with (Z.pos (a + 1)). rewrite !Zdigits2_log2.
  change (Z.pos (a + 1)) with (Z.succ (Z.pos a)).
  pose proof (Z.log2_succ_le (Z.pos a)). lia.
Qed.

Lemma Zdigits2_shiftr a n :
  0 <= a -> 0 <= n -> Zdigits2 (Z.shiftr a n) <= Z.max 0 (Zdigits2 a - n).
Proof.
  intros Ha Hn. destruct a as [|a|a]; [rewrite Z.shiftr_0_l; simpl; lia| |lia].
  pose proof (Z.shiftr_nonneg (Z.pos a) n) as [_ Hs]. specialize (Hs ltac:(lia)).
  destruct (Z.shiftr (Z.pos a) n) as [|q|q] eqn:E; [simpl; lia| |lia].
  rewrite !Zdigits2_log2, <- E.
  rewrite Z.log2_shiftr by lia.
  assert (n <= Z.log2 (Z.pos a)).
  { destruct (Z.le_gt_cases n (Z.log2 (Z.pos a))) as [?|Hlt]; [assumption|].
    rewrite (Z.shiftr_eq_0 (Z.pos a) n) in E by lia. discriminate. }
  lia.
Qed.

Lemma Zdigits2_shiftl a n : 0 < a -> 0 <= n -> Zdigits2 (Z.shiftl a n) = Zdigits2 a + n.
Proof.
  intros Ha Hn. destruct a as [|a|a]; try lia.
  pose proof (Z.shiftl_nonneg (Z.pos a) n) as [_ Hs]. specialize (Hs ltac:(lia)).
  assert (Hne : Z.shiftl (Z.pos a) n <> 0) by (rewrite Z.shiftl_eq_0_iff; lia).
  destruct (Z.shiftl (Z.pos a) n) as [|q|q] eqn:E; try lia.
  rewrite !Zdigits2_log2, <- E, Z.log2_shiftl by lia. lia.
Qed.

Lemma Zpos_lt_pow_digits p : Z.pos p < 2 ^ Zdigits2 (Z.pos p).
Proof.
  rewrite Zdigits2_log2. pose proof (Z.log2_spec (Z.pos p) ltac:(lia)).
  change (Z.log2 (Z.pos p) + 1) with (Z.succ (Z.log2 (Z.pos p))). lia.
Qed.

Lemma shiftr_pos a n : 0 < a -> 0 <= n -> n <= Z.log2 a -> 0 < Z.shiftr a n.
Proof.
  intros Ha Hn Hl. pose proof (Z.shiftr_nonneg a n) as [_ Hs]. specialize (Hs ltac:(lia)).
  assert (Z.shiftr a n <> 0); [|lia].
  intros E. apply Z.shiftr_eq_0_iff in E. lia.
Qed.

(** A right shift by [shr_1] halves the mantissa. *)
Lemma shr_1_m mrs : 0 <= shr_m mrs -> shr_m (shr_1 mrs) = Z.shiftr (shr_m mrs) 1.
Proof.
  rewrite <- Z.div2_spec. destruct mrs as [m r s]. simpl.
  destruct m as [|[p|p|]|p]; simpl; intros; try reflexivity; lia.
Qed.

Lemma iter_shr_1_m p mrs :
  0 <= shr_m mrs -> shr_m (SpecFloat.iter_pos shr_1 p mrs) = Z.shiftr (shr_m mrs) (Z.pos p).
Proof.
  revert mrs. induction p as [p IH|p IH|]; intros mrs Hm; simpl.
  - assert (H1 : 0 <= shr_m (shr_1 mrs)) by (rewrite shr_1_m by assumption; apply Z.shiftr_nonneg; assumption).
    assert (H2 : 0 <= shr_m (SpecFloat.iter_pos shr_1 p (shr_1 mrs))) by (rewrite IH by assumption; apply Z.shiftr_nonneg; assumption).
    rewrite IH, IH, shr_1_m, !Z.shiftr_shiftr by (assumption || lia). f_equal. lia.
  - assert (H2 : 0 <= shr_m (SpecFloat.iter_pos shr_1 p mrs)) by (rewrite IH by assumption; apply Z.shiftr_nonneg; assumption).
    rewrite IH, IH, !Z.shiftr_shiftr by (assumption || lia). f_equal. lia.
  - apply shr_1_m. assumption.
Qed.

Lemma shr_record_of_loc_m m l : shr_m (shr_record_of_loc m l) = m.
Proof. destruct l as [|[]]; reflexivity. Qed.

Lemma shr_fexp_spec m e l :
  0 <= m ->
  shr_m (fst (shr_fexp prec emax m e l))
    = Z.shiftr m (Z.max 0 (fexp prec emax (Zdigits2 m + e) - e)) /\
  snd (shr_fexp prec emax m e l) = Z.max e (fexp prec emax (Zdigits2 m + e)).
Proof.
  intros Hm. unfold shr_fexp, shr.
  destruct (fexp prec emax (Zdigits2 m + e) - e) as [|p|p] eqn:E; cbn [fst snd].
  - rewrite shr_record_of_loc_m, Z.shiftr_0_r. split; [reflexivity | lia].
  - rewrite iter_shr_1_m, shr_record_of_loc_m by (rewrite shr_record_of_loc_m; assumption).
    split; [f_equal; lia | lia].
  - rewrite shr_record_of_loc_m. replace (Z.max 0 (Z.neg p)) with 0 by lia.
    rewrite Z.shiftr_0_r. split; [reflexivity | lia].
Qed.

Lemma round_nearest_even_bounds m l :
  m <= round_nearest_even m l <= m + 1.
Proof.
  unfold round_nearest_even. destruct l as [|[]]; try destruct (Z.even m); lia.
Qed.

(** The shape of a rounded result: the mantissa is shifted, rounded and
    shifted again; the exponent follows. *)
Lemma binary_round_aux_spec s m e l :
  0 <= m ->
  exists m2,
    let m1 := Z.shiftr m (Z.max 0 (fexp prec emax (Zdigits2 m + e) - e)) in
    let e1 := Z.max e (fexp prec emax (Zdigits2 m + e)) in
    let m3 := Z.shiftr m2 (Z.max 0 (fexp prec emax (Zdigits2 m2 + e1) - e1)) in
    let e3 := Z.max e1 (fexp prec emax (Zdigits2 m2 + e1)) in
    m1 <= m2 <= m1 + 1 /\ 0 <= m3 /\
    binary_round_aux prec emax s m e l =
      match m3 with
      | 0 => S754_zero s
      | Z.pos p => if e3 <=? 971 then S754_finite s p e3 else S754_infinity s
      | Z.neg _ => S754_nan
      end.
Proof.
  intros Hm. unfold binary_round_aux.
  pose proof (shr_fexp_spec m e l Hm) as [Hm1 He1].
  destruct (shr_fexp prec emax m e l) as [mrs1 e1]. cbn [fst snd] in Hm1, He1.
  set (m2 := round_nearest_even (shr_m mrs1) (loc_of_shr_record mrs1)).
  pose proof (round_nearest_even_bounds (shr_m mrs1) (loc_of_shr_record mrs1)) as Hm2.
  fold m2 in Hm2.
  assert (H1 : 0 <= shr_m mrs1) by (rewrite Hm1; apply Z.shiftr_nonneg; assumption).
  assert (H2 : 0 <= m2) by lia.
  pose proof (shr_fexp_spec m2 e1 loc_Exact H2) as [Hm3 He3].
  destruct (shr_fexp prec emax m2 e1 loc_Exact) as [mrs2 e2]. cbn [fst snd] in Hm3, He3.
  exists m2. cbv zeta. rewrite <- Hm1, <- He1, <- Hm3, <- He3.
  split; [assumption|]. split; [rewrite Hm3; apply Z.shiftr_nonneg; assumption|].
  reflexivity.
Qed.

Lemma SF_finite_not_nan x : SF_finite x = true -> SF_not_nan x = true.
Proof. destruct x; simpl; congruence. Qed.

Lemma binary_round_aux_not_nan s m e l :
  0 <= m -> SF_not_nan (binary_round_aux prec emax s m e l) = true.
Proof.
  intros Hm. destruct (binary_round_aux_spec s m e l Hm) as (m2 & _ & H3 & ->).
  cbv zeta in *.
  destruct (Z.shiftr m2 _) as [|p|p]; [reflexivity | | lia].
  destruct (_ <=? 971); reflexivity.
Qed.

(** No overflow when the exponent and the magnitude are small enough. *)
Lemma binary_round_aux_finite s m e l :
  0 <= m -> e <= 971 -> Zdigits2 m + e <= 1023 ->
  SF_finite (binary_round_aux prec emax s m e l) = true.
Proof.
  intros Hm He Hd. destruct (binary_round_aux_spec s m e l Hm) as (m2 & Hm2 & H3 & ->).
  cbv zeta in *. rewrite !fexp_eq in *.
  set (n1 := Z.max 0 (Z.max (Zdigits2 m + e - 53) (-1074) - e)) in *.
  set (m1 := Z.shiftr m n1) in *.
  set (e1 := Z.max e (Z.max (Zdigits2 m + e - 53) (-1074))) in *.
  assert (Hm1 : 0 <= m1) by (apply Z.shiftr_nonneg; assumption).
  pose proof (Zdigits2_shiftr m n1 Hm ltac:(lia)) as Hd1. fold m1 in Hd1.
  pose proof (Zdigits2_le m2 (m1 + 1) ltac:(lia)) as Hd2.
  pose proof (Zdigits2_succ m1 Hm1) as Hd3.
  pose proof (Zdigits2_nonneg m2).
  destruct (Z.shiftr m2 _) as [|p|p]; [reflexivity | | lia].
  destruct (Z.leb_spec (Z.max e1 (Z.max (Zdigits2 m2 + e1 - 53) (-1074))) 971);
    [reflexivity | lia].
Qed.

(** A positive mantissa above the smallest exponent never rounds to zero,
    and rounding never lowers the exponent. *)
Lemma binary_round_aux_positive s m e l :
  0 < m -> -1074 <= e ->
  (exists p e3, binary_round_aux prec emax s m e l = S754_finite s p e3 /\ e <= e3) \/
  binary_round_aux prec emax s m e l = S754_infinity s.
Proof.
  intros Hm He. destruct (binary_round_aux_spec s m e l ltac:(lia)) as (m2 & Hm2 & H3 & ->).
  cbv zeta in *. rewrite !fexp_eq in *.
  set (n1 := Z.max 0 (Z.max (Zdigits2 m + e - 53) (-1074) - e)) in *.
  set (e1 := Z.max e (Z.max (Zdigits2 m + e - 53) (-1074))) in *.
  assert (Hm1 : 0 < Z.shiftr m n1).
  { apply shiftr_pos; [assumption | lia |].
    destruct m as [|q|q]; try lia.
    pose proof (Zdigits2_log2 q). pose proof (Z.log2_nonneg (Z.pos q)). lia. }
  set (n2 := Z.max 0 (Z.max (Zdigits2 m2 + e1 - 53) (-1074) - e1)) in *.
  assert (Hm3 : 0 < Z.shiftr m2 n2).
  { apply shiftr_pos; [lia | lia |].
    destruct m2 as [|q|q]; try lia.
    pose proof (Zdigits2_log2 q). pose proof (Z.log2_nonneg (Z.pos q)). lia. }
  destruct (Z.shiftr m2 n2) as [|p|p]; try lia.
  destruct (Z.leb_spec (Z.max e1 (Z.max (Zdigits2 m2 + e1 - 53) (-1074))) 971).
  - left. eexists _, _. split; [reflexivity | lia].
  - right. reflexivity.
Qed.

Lemma shl_align_spec mx ex ex' :
  let '(mz, ez) := shl_align mx ex ex' in
  ez = Z.min ex ex' /\ Zdigits2 (Z.pos mz) + ez = Zdigits2 (Z.pos mx) + ex.
Proof.
  unfold shl_align. destruct (ex' - ex) as [|d|d] eqn:E.
  - split; lia.
  - split; lia.
  - split; [lia|].
    assert (Hs : Z.pos (Pos.iter xO mx d) = Z.shiftl (Z.pos mx) (Z.pos d)).
    { apply (Pos.iter_swap_gen _ _ Z.pos xO (Z.mul 2)). intros a. reflexivity. }
    rewrite Hs, Zdigits2_shiftl by lia. lia.
Qed.

(** The float of a positive [int] is positive and at least one half ulp
    above zero: its exponent is at least -52. *)
Lemma binary_normalize_positive z :
  0 < z ->
  (exists m e, binary_normalize prec emax z 0 false = S754_finite false m e /\ -52 <= e) \/
  binary_normalize prec emax z 0 false = S754_infinity false.
Proof.
  intros Hz. destruct z as [|p|p]; try lia. unfold binary_normalize, binary_round.
  pose proof (shl_align_spec p 0 (fexp prec emax (Z.pos (digits2_pos p) + 0))) as H.
  destruct (shl_align p 0 _) as [mz ez]. destruct H as [Hez _].
  rewrite fexp_eq in Hez.
  assert (-52 <= ez) by lia.
  destruct (binary_round_aux_positive false (Z.pos mz) ez loc_Exact ltac:(lia) ltac:(lia))
    as [(m & e & E & He)|E]; rewrite E.
  - left. exists m, e. split; [reflexivity | lia].
  - right. reflexivity.
Qed.

Lemma SF64div_finite sx mx ex sy my ey :
  ex - ey <= 971 -> Zdigits2 (Z.pos mx) + ex - ey <= 1023 ->
  SF_finite (SF64div (S754_finite sx mx ex) (S754_finite sy my ey)) = true.
Proof.
  intros He Hd. unfold SF64div, SFdiv, SFdiv_core_binary.
  set (e' := Z.min _ (ex - ey)).
  set (m' := match ex - ey - e' with 0 => Z.pos mx | Z.pos _ => Z.shiftl (Z.pos mx) (ex - ey - e') | Z.neg _ => 0 end).
  assert (Hm' : m' = Z.shiftl (Z.pos mx) (ex - ey - e')).
  { unfold m'. destruct (ex - ey - e') as [|s|s] eqn:E; [reflexivity | reflexivity | lia]. }
  assert (Hq : fst (Z.div_eucl m' (Z.pos my)) = m' / Z.pos my) by reflexivity.
  destruct (Z.div_eucl m' (Z.pos my)) as [q r]. cbn [fst] in Hq.
  assert (Hm'pos : 0 <= m').
  { rewrite Hm'. apply Z.shiftl_nonneg. lia. }
  assert (Hq0 : 0 <= q) by (rewrite Hq; apply Z.div_pos; lia).
  assert (Hqm : q <= m').
  { rewrite Hq. apply Z.div_le_upper_bound; [lia | nia]. }
  pose proof (Zdigits2_le q m' ltac:(lia)) as Hdq.
  rewrite Hm', Zdigits2_shiftl in Hdq by lia.
  apply binary_round_aux_finite; lia.
Qed.

Lemma SF64mul_not_nan x y :
  SF_finite x = true -> SF_finite y = true -> SF_not_nan (SF64mul x y) = true.
Proof.
  destruct x as [sx|sx| |sx mx ex], y as [sy|sy| |sy my ey]; simpl; try congruence;
    intros _ _; try reflexivity.
  apply binary_round_aux_not_nan. lia.
Qed.

Lemma binary_normalize_not_nan z e b :
  SF_not_nan (binary_normalize prec emax z e b) = true.
Proof.
  destruct z as [|p|p]; [reflexivity| |]; unfold binary_normalize, binary_round;
    destruct (shl_align _ _ _) as [mz ez]; apply binary_round_aux_not_nan; lia.
Qed.

Lemma SF64add_not_nan x y :
  SF_finite x = true -> SF_not_nan y = true -> SF_not_nan (SF64add x y) = true.
Proof.
  destruct x as [sx|sx| |sx mx ex], y as [sy|sy| |sy my ey]; simpl; try congruence;
    intros _ _; try reflexivity; try (destruct sx, sy; reflexivity).
  apply binary_normalize_not_nan.
Qed.

Lemma SFleb_of_not_SFltb x y :
  SF_not_nan x = true -> SF_not_nan y = true -> SFltb x y = false -> SFleb y x = true.
Proof.
  unfold SFltb, SFleb, SFcompare.
  destruct x as [sx|sx| |sx mx ex], y as [sy|sy| |sy my ey];
    try destruct sx; try destruct sy; simpl; try discriminate; try reflexivity;
    intros _ _; change (Pos.compare_cont Eq) with Pos.compare;
    destruct (Z.compare_spec ex ey), (Z.compare_spec ey ex);
    try discriminate; try reflexivity; try lia;
    destruct (Pos.compare_spec mx my), (Pos.compare_spec my mx);
    try discriminate; try reflexivity; lia.
Qed.

Lemma float64_of_int_spec z :
  0 <= z < 2 ^ 63 -> Prim2SF (float64_of_int z) = binary_normalize prec emax z 0 false.
Proof.
  intros Hz. rewrite float64_of_int_of_Z by exact Hz.
  rewrite of_uint63_spec, to_Z_of_Z_small by exact Hz. reflexivity.
Qed.

(** The dithering step [255 / paletteSize] is a finite number. *)
Lemma dither_step_finite ps :
  1 <= ps <= GoInt.max_int ->
  SF_finite (Prim2SF (255 / float64_of_int ps)%float) = true.
Proof.
  unfold GoInt.max_int. intros Hps.
  rewrite FloatAxioms.div_spec, float64_of_int_spec by lia.
  remember (Prim2SF 255) as c255 eqn:E. vm_compute in E. subst c255.
  destruct (binary_normalize_positive ps ltac:(lia)) as [(mf & ef & -> & Hef)| ->].
  - apply SF64div_finite; [lia|]. change (Zdigits2 (Z.pos 8972014882652160)) with 53. lia.
  - reflexivity.
Qed.

Lemma channel_finite v : is_uint8 v -> SF_finite (Prim2SF (float64_of_int v)) = true.
Proof.
  intros Hv. apply (forallb_seqZ channel_finite_check 0 256); [|exact Hv].
  vm_compute. reflexivity.
Qed.

Lemma coefficient_at_finite N i coef :
  supported_order N -> coefficient_at N i = Ok coef -> SF_finite (Prim2SF coef) = true.
Proof.
  intros HN Hc.
  assert (Hi : 0 <= i < N * N).
  { unfold coefficient_at in Hc.
    destruct (index (bayer_table N) i) as [t|] eqn:Ht; [|discriminate].
    apply index_Ok in Ht as [Hi0 Ht]. apply lookup_lt_Some in Ht.
    destruct HN as [->|[->| ->]]; simpl in Ht; lia. }
  assert (Hchk : coefficient_finite_check N i = true).
  { destruct HN as [->|[->| ->]];
      [ apply (forallb_seqZ (coefficient_finite_check 2) 0 4)
      | apply (forallb_seqZ (coefficient_finite_check 4) 0 16)
      | apply (forallb_seqZ (coefficient_finite_check 8) 0 64) ];
      try lia; vm_compute; reflexivity. }
  unfold coefficient_finite_check in Hchk. rewrite Hc in Hchk. exact Hchk.
Qed.

(** Whatever the order and the coordinates, a coefficient that is returned
    was read from one of the three tables. *)
Lemma BayerCoefficient_table x y m :
  exists N i, supported_order N /\ BayerCoefficient x y m = coefficient_at N i.
Proof.
  unfold BayerCoefficient.
  destruct (Z.eqb_spec m 2) as [->|H2]; [|destruct (Z.eqb_spec m 4) as [->|H4];
    [|destruct (Z.eqb_spec m 8) as [->|H8]]]; cbn [negb andb].
  - eexists 2, _. split; [left; reflexivity | reflexivity].
  - eexists 4, _. split; [right; left; reflexivity | reflexivity].
  - eexists 8, _. split; [right; right; reflexivity | reflexivity].
  - eexists 8, _. split; [right; right; reflexivity | reflexivity].
Qed.

Lemma ClampF64_range r :
  SF_not_nan (Prim2SF r) = true ->
  (0 <=? ClampF64 r 0 255)%float = true /\ (ClampF64 r 0 255 <=? 255)%float = true.
Proof.
  intros Hr. unfold ClampF64.
  destruct (r <? 0)%float eqn:E1; [split; reflexivity|].
  destruct (255 <? r)%float eqn:E2; [split; reflexivity|].
  rewrite FloatAxioms.ltb_spec in E1, E2. rewrite !FloatAxioms.leb_spec.
  split; apply SFleb_of_not_SFltb; try assumption; reflexivity.
Qed.

Lemma float64_trunc_range f :
  (0 <=? f)%float = true -> (f <=? 255)%float = true ->
  exists z, float64_trunc f = Some z /\ 0 <= z <= 255.
Proof.
  rewrite !FloatAxioms.leb_spec. intros H0 H255.
  pose proof (Prim2SF_valid f) as Hv. unfold float64_trunc.
  remember (Prim2SF 0) as c0 eqn:E0. vm_compute in E0. subst c0.
  remember (Prim2SF 255) as c255 eqn:E. vm_compute in E. subst c255.
  destruct (Prim2SF f) as [s|s| |s m e].
  - exists 0. split; [reflexivity | lia].
  - destruct s; discriminate.
  - discriminate.
  - destruct s; [discriminate|].
    unfold SFleb, SFcompare in H255.
    change (Pos.compare_cont Eq) with Pos.compare in H255.
    unfold valid_binary, bounded, canonical_mantissa in Hv.
    apply andb_true_iff in Hv as [Hc _]. apply Z.eqb_eq in Hc. rewrite fexp_eq in Hc.
    pose proof (Zpos_lt_pow_digits m) as Hm. change (Zdigits2 (Z.pos m)) with (Z.pos (digits2_pos m)) in Hm.
    assert (Hd : Z.pos (digits2_pos m) <= 53) by lia.
    assert (Hm53 : Z.pos m < 2 ^ 53).
    { eapply Z.lt_le_trans; [exact Hm|]. apply Z.pow_le_mono_r; lia. }
    assert (He : e <= -45 /\ (e = -45 -> Z.pos m <= 8972014882652160)).
    { destruct (Z.compare_spec e (-45)); [|split; [lia | lia]|discriminate].
      split; [lia|]. intros _.
      destruct (Pos.compare_spec m 8972014882652160) as [->|Hlt|Hgt];
        [apply Z.le_refl | apply Z.lt_le_incl; exact Hlt | discriminate]. }
    destruct He as [He He'].
    destruct (Z.leb_spec 0 e) as [?|_]; [lia|].
    exists (Z.shiftr (Z.pos m) (- e)). split; [reflexivity|].
    rewrite Z.shiftr_div_pow2 by lia.
    assert (Hp : 0 < 2 ^ (- e)) by (apply Z.pow_pos_nonneg; lia).
    split; [apply Z.div_pos; lia|].
    apply Z.lt_succ_r. apply Z.div_lt_upper_bound; [assumption|].
    destruct (Z.eq_dec e (-45)) as [->|Hne].
    + specialize (He' eq_refl). change (2 ^ (- -45)) with 35184372088832. lia.
    + assert (2 ^ 46 <= 2 ^ (- e)) by (apply Z.pow_le_mono_r; lia).
      change (2 ^ 46) with 70368744177664 in *. change (2 ^ 53) with 9007199254740992 in *. lia.
Qed.

(** ** The ditherer *)

Section Dithering.

Variable u : float -> Z.

Lemma dithered_channel_in_range v ps coef :
  is_uint8 v -> 1 <= ps <= GoInt.max_int -> SF_finite (Prim2SF coef) = true ->
  let k := (255 / float64_of_int ps * coef)%float in
  channel_in_range v k (uint8_of_float64 u (ClampF64 (float64_of_int v + k)%float 0 255)).
Proof.
  intros Hv Hps Hcoef k. unfold channel_in_range. cbv zeta.
  assert (Hk : SF_not_nan (Prim2SF k) = true).
  { unfold k. rewrite FloatAxioms.mul_spec.
    apply SF64mul_not_nan; [apply dither_step_finite; assumption | assumption]. }
  assert (Hr : SF_not_nan (Prim2SF (float64_of_int v + k)%float) = true).
  { rewrite FloatAxioms.add_spec.
    apply SF64add_not_nan; [apply channel_finite; assumption | assumption]. }
  destruct (ClampF64_range _ Hr) as [H0 H255].
  destruct (float64_trunc_range _ H0 H255) as (z & Hz & Hzr).
  unfold uint8_of_float64. rewrite Hz.
  replace ((0 <=? z) && (z <=? 255)) with true
    by (symmetry; apply andb_true_iff; split; apply Z.leb_le; lia).
  repeat split; try assumption; lia.
Qed.

(** C8: for a palette size of at least 1 every channel of the dithered
    colour is the integer part of a float that was clamped to [0, 255],
    hence lies in [0, 255], and the alpha channel is 255. A colour is
    returned whenever the coordinates are non-negative. *)
Theorem BayerDithering_clamped (c : RGBA) (x y paletteSize bayerMatSize : Z) :
  wf_color c -> 1 <= paletteSize <= GoInt.max_int ->
  (0 <= x -> 0 <= y -> exists c', BayerDithering u c x y paletteSize bayerMatSize = Ok c') /\
  (forall c', BayerDithering u c x y paletteSize bayerMatSize = Ok c' ->
     exists coef,
       BayerCoefficient x y bayerMatSize = Ok coef /\
       let k := (255 / float64_of_int paletteSize * coef)%float in
       channel_in_range (R c) k (R c') /\
       channel_in_range (G c) k (G c') /\
       channel_in_range (B c) k (B c') /\
       A c' = 255).
Proof.
  intros (Hr & Hg & Hb & _) Hps. split.
  - intros Hx Hy. unfold BayerDithering.
    destruct (BayerCoefficient_defined x y bayerMatSize Hx Hy) as [coef Hc].
    rewrite Hc. cbn. eauto.
  - intros c' Hc'. unfold BayerDithering in Hc'.
    destruct (BayerCoefficient x y bayerMatSize) as [coef|] eqn:Ecoef; [|discriminate].
    cbn in Hc'. injection Hc' as <-. exists coef. split; [reflexivity|].
    assert (Hfin : SF_finite (Prim2SF coef) = true).
    { destruct (BayerCoefficient_table x y bayerMatSize) as (N & i & HN & E).
      rewrite E in Ecoef. apply (coefficient_at_finite N i coef HN Ecoef). }
    cbv zeta. cbn [R G B A].
    split; [apply dithered_channel_in_range; assumption|].
    split; [apply dithered_channel_in_range; assumption|].
    split; [apply dithered_channel_in_range; assumption|].
    reflexivity.
Qed.

End Dithering.

(** ** The pipeline driver *)

Lemma bind_singleton_fmap {X Y : Type} (g : X -> Y) (xs : list X) :
  xs ≫= (fun x => [g x]) = g <$> xs.
Proof.
  induction xs as [|x xs IH]; [reflexivity|]. cbn. congruence.
Qed.

Lemma raster_rows r :
  raster r = seqZ (MinY r) (MaxY r - MinY r)
               ≫= (fun y => (fun x => (x, y)) <$> seqZ (MinX r) (MaxX r - MinX r)).
Proof.
  unfold raster. induction (seqZ (MinY r) (MaxY r - MinY r)) as [|y ys IH]; [reflexivity|].
  cbn [mbind list_bind] in *. rewrite IH. f_equal; apply bind_singleton_fmap.
Qed.

Lemma elem_of_raster x y r : (x, y) ∈ raster r <-> In_rect x y r = true.
Proof.
  rewrite raster_rows, list_elem_of_bind. unfold In_rect. split.
  - intros (y' & Hx & Hy). apply list_elem_of_fmap in Hx as (x' & E & Hx).
    injection E as -> ->. apply elem_of_seqZ in Hx, Hy.
    rewrite !andb_true_iff, !Z.leb_le, !Z.ltb_lt. lia.
  - rewrite !andb_true_iff, !Z.leb_le, !Z.ltb_lt. intros H.
    exists y. split.
    + apply list_elem_of_fmap. exists x. split; [reflexivity|]. apply elem_of_seqZ. lia.
    + apply elem_of_seqZ. lia.
Qed.

Lemma NoDup_raster r : NoDup (raster r).
Proof.
  rewrite raster_rows.
  pose proof (NoDup_seqZ (MinY r) (MaxY r - MinY r)) as Hys.
  generalize dependent (seqZ (MinY r) (MaxY r - MinY r)). intros ys Hys.
  induction ys as [|y ys IH]; [constructor|].
  apply NoDup_cons in Hys as [Hy Hys]. cbn [mbind list_bind].
  apply NoDup_app. split; [|split].
  - apply NoDup_fmap_2_strong; [|apply NoDup_seqZ]. intros a b _ _ E. congruence.
  - intros [x' y'] H1 H2. apply list_elem_of_fmap in H1 as (x & E & _).
    injection E as -> ->.
    apply list_elem_of_bind in H2 as (y' & H2 & Hy').
    apply list_elem_of_fmap in H2 as (x'' & E & _). injection E as -> ->.
    contradiction.
  - apply IH, Hys.
Qed.

Lemma last_write_writes color l x y :
  (x, y) ∈ l -> last_write (writes_of color l) x y = Some (color x y).
Proof.
  induction l as [|[x' y'] l IH]; intros H; [by apply elem_of_nil in H|].
  cbn. destruct (Z.eqb_spec x' x) as [->|Hx]; cbn.
  - destruct (Z.eqb_spec y' y) as [->|Hy]; [reflexivity|].
    apply IH. apply elem_of_cons in H as [E|H]; [congruence | assumption].
  - apply IH. apply elem_of_cons in H as [E|H]; [congruence | assumption].
Qed.

Lemma for_each_set (xs : list Z) (y : Z) (f : Z -> result RGBA) (out : RGBAImage) :
  (forall x, x ∈ xs -> In_rect x y (Rect out) = true /\ exists c, f x = Ok c) ->
  for_each xs (fun x o => c ← f x; Ok (RGBA_Set o x y c)) out
  = Ok (mkRGBAImage (Rect out)
          (reverse ((fun x => ((x, y), value_or_zero (f x))) <$> xs) ++ Pix out)).
Proof.
  revert out. induction xs as [|x xs IH]; intros out H.
  - destruct out. reflexivity.
  - destruct (H x) as [Hin [c Hc]]; [left|]. cbn [for_each]. rewrite Hc. cbn [mbind result_bind].
    replace (RGBA_Set out x y c) with (mkRGBAImage (Rect out) (((x, y), c) :: Pix out))
      by (unfold RGBA_Set; rewrite Hin; reflexivity).
    rewrite IH; cbn [Rect Pix].
    + rewrite fmap_cons, reverse_cons, Hc, <- app_assoc. reflexivity.
    + intros x' Hx'. apply H. by right.
Qed.

Lemma for_each_rows (ys xs : list Z) (f : Z -> Z -> result RGBA) (out : RGBAImage) :
  (forall x y, x ∈ xs -> y ∈ ys -> In_rect x y (Rect out) = true /\ exists c, f x y = Ok c) ->
  for_each ys (fun y o => for_each xs (fun x o => c ← f x y; Ok (RGBA_Set o x y c)) o) out
  = Ok (mkRGBAImage (Rect out)
          (reverse (writes_of (fun x y => value_or_zero (f x y))
                      (ys ≫= (fun y => (fun x => (x, y)) <$> xs))) ++ Pix out)).
Proof.
  revert out. induction ys as [|y ys IH]; intros out H.
  - destruct out. reflexivity.
  - cbn [for_each]. rewrite (for_each_set xs y (fun x => f x y) out).
    + cbn [mbind result_bind]. rewrite IH; cbn [Rect Pix].
      * cbn [list_bind]. unfold writes_of.
        rewrite fmap_app, reverse_app, <- app_assoc, <- list_fmap_compose. reflexivity.
      * intros x y' Hx Hy'. apply H; [assumption | by right].
    + intros x Hx. apply H; [assumption | left].
Qed.

Lemma mul3NonNeg_fits w h :
  1 <= w -> 1 <= h -> 4 * w * h <= GoInt.max_int -> mul3NonNeg 4 w h = 4 * w * h.
Proof.
  unfold mul3NonNeg, GoInt.max_int. intros Hw Hh Hf.
  destruct (Z.ltb_spec 4 0); [lia|]. destruct (Z.ltb_spec w 0); [lia|].
  destruct (Z.ltb_spec h 0); [lia|]. cbn [orb].
  destruct (Z.leb_spec (2 ^ 64) (4 * w)); [nia|].
  destruct (Z.leb_spec (2 ^ 64) (4 * w * h)); [lia|].
  destruct (Z.ltb_spec (2 ^ 63 - 1) (4 * w * h)); [lia | reflexivity].
Qed.

Lemma PixelColor_wf img x y : wf_color (PixelColor img x y).
Proof.
  unfold PixelColor, wf_color, is_uint8, wrap8.
  destruct (AtRGBA img x y) as [[[r g] b] a]. cbn.
  repeat split; apply Z.mod_pos_bound; lia.
Qed.

Section Driver.

Variable u : float -> Z.

Lemma pixel_out_total img palette m x y :
  0 <= x -> 0 <= y -> palette <> [] ->
  exists d c, BayerDithering u (PixelColor img x y) x y (len palette) m = Ok d /\
              NearestColor d palette = Ok c /\ pixel_out u img palette m x y = Ok c.
Proof.
  intros Hx Hy Hp. unfold pixel_out, BayerDithering.
  destruct (BayerCoefficient_defined x y m Hx Hy) as [coef ->]. cbn [mbind result_bind].
  destruct palette as [|p0 rest]; [congruence|].
  eexists _, _. split; [reflexivity|]. split; apply NearestColor_scan.
Qed.

(** C1 (amended): on an image with at least one pixel, a non-negative
    origin and a buffer that fits an [int], the driver returns an image
    with the bounds of the input; the palette is built once, from the
    input alone; the colour at every coordinate is the nearest palette
    colour of the dithered source colour; and the writes are one per
    coordinate, in raster order. *)
Theorem QuantizeImage_correct (img : Image) (paletteMaxSize bayerMatSize : Z) :
  let b := Bounds img in
  MinX b < MaxX b -> MinY b < MaxY b -> 0 <= MinX b -> 0 <= MinY b ->
  4 * (MaxX b - MinX b) * (MaxY b - MinY b) <= GoInt.max_int ->
  exists palette out,
    PaletteFromImage u img paletteMaxSize = Ok palette /\
    QuantizeImage u img paletteMaxSize bayerMatSize = Ok out /\
    Rect out = b /\
    (forall x y, In_rect x y b = true ->
       exists d,
         BayerDithering u (PixelColor img x y) x y (len palette) bayerMatSize = Ok d /\
         NearestColor d palette = Ok (RGBAAt out x y)) /\
    Pix out = reverse (writes_of (fun x y => RGBAAt out x y) (raster b)) /\
    NoDup (Pix out).*1 /\
    (forall x y, (x, y) ∈ (Pix out).*1 <-> In_rect x y b = true).
Proof.
  intros b Hw Hh Hx0 Hy0 Hfit. unfold GoInt.max_int in Hfit.
  assert (Hn : 1 <= pixelCount img <= GoInt.max_int).
  { unfold pixelCount, GoInt.max_int. fold b. nia. }
  destruct (PaletteFromImage_buckets u img paletteMaxSize Hn)
    as (Heps & _ & _ & palette & Epal & HF).
  assert (Hne : palette <> []).
  { apply Forall2_length in HF. rewrite length_seqZ in HF.
    intros ->. simpl in HF. lia. }
  set (color := fun x y => value_or_zero (pixel_out u img palette bayerMatSize x y)).
  set (out := mkRGBAImage b (reverse (writes_of color (raster b)))).
  assert (Hcoord : forall x y, In_rect x y b = true -> 0 <= x /\ 0 <= y).
  { unfold In_rect. intros x y H. rewrite !andb_true_iff, !Z.leb_le, !Z.ltb_lt in H. lia. }
  assert (Hq : QuantizeImage u img paletteMaxSize bayerMatSize = Ok out).
  { unfold QuantizeImage. rewrite Epal. cbn [mbind result_bind].
    unfold NewRGBA, Dx, Dy, GoInt.sub. fold b.
    rewrite !wrap_small by (unfold GoInt.in_range, GoInt.min_int, GoInt.max_int; nia).
    rewrite mul3NonNeg_fits by (unfold GoInt.max_int; lia).
    destruct (Z.ltb_spec (4 * (MaxX b - MinX b) * (MaxY b - MinY b)) 0); [nia|].
    cbn [mbind result_bind]. unfold for_loop. fold b.
    rewrite (for_each_ext _ _
      (fun y o => for_each (seqZ (MinX b) (MaxX b - MinX b))
                    (fun x o => c ← pixel_out u img palette bayerMatSize x y;
                                Ok (RGBA_Set o x y c)) o)).
    - rewrite for_each_rows.
      + cbn [Rect Pix]. rewrite app_nil_r, <- raster_rows. reflexivity.
      + cbn [Rect]. intros x y Hx Hy. apply elem_of_seqZ in Hx, Hy.
        assert (Hin : In_rect x y b = true).
        { unfold In_rect. rewrite !andb_true_iff, !Z.leb_le, !Z.ltb_lt. lia. }
        split; [assumption|].
        destruct (pixel_out_total img palette bayerMatSize x y) as (d & c & _ & _ & E);
          [lia | lia | assumption | eauto].
    - intros y o _. apply for_each_ext. intros x o' _. unfold pixel_out.
      destruct (BayerDithering u (PixelColor img x y) x y (len palette) bayerMatSize);
        reflexivity. }
  assert (Hat : forall x y, In_rect x y b = true -> RGBAAt out x y = color x y).
  { intros x y Hin. unfold RGBAAt, out. cbn [Rect Pix]. rewrite Hin.
    unfold writes_of. rewrite <- fmap_reverse. fold (writes_of color (reverse (raster b))).
    rewrite last_write_writes; [reflexivity|].
    apply elem_of_reverse, elem_of_raster, Hin. }
  assert (Hkeys : (Pix out).*1 = reverse (raster b)).
  { unfold out, writes_of. cbn [Pix].
    rewrite fmap_reverse, <- list_fmap_compose. f_equal. apply list_fmap_id. }
  exists palette, out. split; [assumption|]. split; [assumption|].
  split; [reflexivity|]. split; [|split; [|split]].
  - intros x y Hin. destruct (Hcoord x y Hin) as [Hx Hy].
    destruct (pixel_out_total img palette bayerMatSize x y Hx Hy Hne) as (d & c & Ed & Ec & E).
    exists d. split; [assumption|]. rewrite Hat by assumption.
    unfold color. rewrite E. exact Ec.
  - unfold out at 1. cbn [Pix]. f_equal. unfold writes_of.
    apply list_fmap_ext. intros i [x y] Hi. cbn. f_equal. symmetry. apply Hat.
    apply elem_of_raster. eapply list_elem_of_lookup_2, Hi.
  - rewrite Hkeys, reverse_Permutation. apply NoDup_raster.
  - intros x y. rewrite Hkeys, elem_of_reverse. apply elem_of_raster.
Qed.

End Driver.

(** ** Runs on concrete inputs *)

Lemma QuantizeImage_correct_witness :
  exists palette out,
    PaletteFromImage uint8_zero five_pixels 2 = Ok palette /\
    QuantizeImage uint8_zero five_pixels 2 2 = Ok out /\
    Rect out = Bounds five_pixels /\
    (forall x y, In_rect x y (Bounds five_pixels) = true ->
       exists d,
         BayerDithering uint8_zero (PixelColor five_pixels x y) x y (len palette) 2 = Ok d /\
         NearestColor d palette = Ok (RGBAAt out x y)) /\
    Pix out = reverse (writes_of (fun x y => RGBAAt out x y) (raster (Bounds five_pixels))) /\
    NoDup (Pix out).*1 /\
    (forall x y, (x, y) ∈ (Pix out).*1 <-> In_rect x y (Bounds five_pixels) = true).
Proof.
  apply (QuantizeImage_correct uint8_zero five_pixels 2 2);
    [reflexivity | reflexivity | discriminate | discriminate | discriminate].
Defined.

(** C1 (as stated) fails on an image without pixels, where building the
    palette divides by zero, and on an image with a negative coordinate,
    where the Bayer table lookup panics. *)
Lemma QuantizeImage_panics :
  QuantizeImage uint8_zero empty_image 2 2 = Panic DivideByZero /\
  QuantizeImage uint8_zero shifted_pixel 2 2 = Panic IndexOutOfRange /\
  ~ (exists out, QuantizeImage uint8_zero empty_image 2 2 = Ok out) /\
  ~ (exists out, QuantizeImage uint8_zero shifted_pixel 2 2 = Ok out).
Proof.
  assert (E1 : QuantizeImage uint8_zero empty_image 2 2 = Panic DivideByZero)
    by (vm_compute; reflexivity).
  assert (E2 : QuantizeImage uint8_zero shifted_pixel 2 2 = Panic IndexOutOfRange)
    by (vm_compute; reflexivity).
  repeat split; try assumption; intros [out E]; congruence.
Qed.

Lemma PaletteFromImage_length_witness :
  exists palette,
    PaletteFromImage uint8_zero five_pixels 7 = Ok palette /\
    len palette = Z.min (Z.max 7 2) (pixelCount five_pixels).
Proof.
  apply (PaletteFromImage_length uint8_zero five_pixels 7).
  split; vm_compute; discriminate.
Defined.

(** C2 (as stated) fails on an image without pixels: no sequence is
    returned, the division [len(pixels) / 0] panics. *)
Lemma PaletteFromImage_empty_image :
  pixelCount empty_image = 0 /\
  PaletteFromImage uint8_zero empty_image 7 = Panic DivideByZero /\
  ~ (exists palette,
       PaletteFromImage uint8_zero empty_image 7 = Ok palette /\
       len palette = Z.min (Z.max 7 2) (pixelCount empty_image)).
Proof.
  split; [reflexivity|]. split; [vm_compute; reflexivity|].
  intros (palette & E & _). vm_compute in E. discriminate.
Qed.

(** C3 (code defect): every palette entry is the mean colour of a bucket
    of exactly [bucketSize] sorted pixels, [i * bucketSize] up to
    [i * bucketSize + bucketSize]; the last bucket stops at
    [estimatedPaletteSize * bucketSize] and the remainder of the sorted
    pixels is in no bucket. With five pixels and two buckets the pixel of
    red value 250 is dropped: the second entry is the mean of 30 and 40,
    not of 30, 40 and 250. *)
Theorem PaletteFromImage_drops_remainder (u : float -> Z) :
  (forall img k,
     1 <= pixelCount img <= GoInt.max_int ->
     let bucketSize := pixelCount img / estimatedPaletteSize img k in
     estimatedPaletteSize img k * bucketSize <= pixelCount img /\
     exists palette,
       PaletteFromImage u img k = Ok palette /\
       Forall2 (fun i c =>
                  MeanColorOfRange u (RedSortedImagePixels img)
                    (i * bucketSize) (i * bucketSize + bucketSize) = Ok c)
               (seqZ 0 (estimatedPaletteSize img k)) palette) /\
  (R <$> RedSortedImagePixels five_pixels) = [10; 20; 30; 40; 250] /\
  estimatedPaletteSize five_pixels 2 = 2 /\
  int_div (len (RedSortedImagePixels five_pixels)) (estimatedPaletteSize five_pixels 2) = Ok 2 /\
  ClampAboveInt (GoInt.add (GoInt.mul 1 2) 2) (len (RedSortedImagePixels five_pixels)) = 4 /\
  PaletteFromImage u five_pixels 2 = Ok [mkRGBA 15 7 9 255; mkRGBA 35 7 9 255] /\
  MeanColorOfRange u (RedSortedImagePixels five_pixels) 2 5 = Ok (mkRGBA 106 7 9 255).
Proof.
  split.
  { intros img k Hn bucketSize.
    destruct (PaletteFromImage_buckets u img k Hn) as (_ & _ & Hmul & palette & E & HF).
    split; [exact Hmul|]. exists palette. split; [exact E | exact HF]. }
  split; [vm_compute; reflexivity|].
  split; [vm_compute; reflexivity|].
  split; [vm_compute; reflexivity|].
  split; [vm_compute; reflexivity|].
  split; vm_compute; reflexivity.
Qed.

Lemma NearestColor_first_minimum_witness :
  exists i e,
    NearestColor (mkRGBA 100 100 100 255) [black; white] = Ok e /\
    [black; white] !! i = Some e /\
    (forall j e', [black; white] !! j = Some e' ->
       ColorDistance (mkRGBA 100 100 100 255) e'
         = sqrt_of_int (sqdist (mkRGBA 100 100 100 255) e') /\
       sqdist (mkRGBA 100 100 100 255) e <= sqdist (mkRGBA 100 100 100 255) e' /\
       (ColorDistance (mkRGBA 100 100 100 255) e
          <=? ColorDistance (mkRGBA 100 100 100 255) e')%float = true) /\
    (forall j e', (j < i)%nat -> [black; white] !! j = Some e' ->
       sqdist (mkRGBA 100 100 100 255) e < sqdist (mkRGBA 100 100 100 255) e' /\
       (ColorDistance (mkRGBA 100 100 100 255) e
          <? ColorDistance (mkRGBA 100 100 100 255) e')%float = true).
Proof.
  apply (NearestColor_first_minimum (mkRGBA 100 100 100 255) [black; white]).
  - unfold wf_color, is_uint8. simpl. lia.
  - repeat constructor; simpl; lia.
  - discriminate.
Defined.

Lemma BayerDithering_clamped_witness :
  (0 <= 1 -> 0 <= 1 ->
   exists c', BayerDithering uint8_zero (mkRGBA 0 128 255 7) 1 1 1 2 = Ok c') /\
  (forall c', BayerDithering uint8_zero (mkRGBA 0 128 255 7) 1 1 1 2 = Ok c' ->
     exists coef,
       BayerCoefficient 1 1 2 = Ok coef /\
       let k := (255 / float64_of_int 1 * coef)%float in
       channel_in_range 0 k (R c') /\
       channel_in_range 128 k (G c') /\
       channel_in_range 255 k (B c') /\
       A c' = 255).
Proof.
  apply (BayerDithering_clamped uint8_zero (mkRGBA 0 128 255 7) 1 1 1 2).
  - unfold wf_color, is_uint8. simpl. lia.
  - split; [lia | vm_compute; discriminate].
Defined.

Lemma ClampU8_wrap8 z : ClampU8 (wrap8 z) 0 255 = z mod 256.
Proof.
  unfold ClampU8, wrap8. pose proof (Z.mod_pos_bound z 256 ltac:(lia)).
  destruct (Z.ltb_spec (z mod 256) 0); [lia|].
  destruct (Z.gtb_spec (z mod 256) 255); [lia | reflexivity].
Qed.

(** C9 (code defect): the channel sum is formed in [uint8] and has already
    wrapped when [ClampU8] receives it, so the clamp never acts: each
    channel is the sum modulo 256. 200 + 100 gives 44, not 255. *)
Theorem Add_wraps :
  (forall c1 c2,
     Add c1 c2 = mkRGBA ((R c1 + R c2) mod 256) ((G c1 + G c2) mod 256)
                        ((B c1 + B c2) mod 256) 255) /\
  Add (mkRGBA 200 0 0 255) (mkRGBA 100 0 0 255) = mkRGBA 44 0 0 255 /\
  Z.min (200 + 100) 255 = 255.
Proof.
  split; [|split; reflexivity].
  intros c1 c2. unfold Add. rewrite !ClampU8_wrap8. reflexivity.
Qed.

Lemma PaletteFromImage_total_iff_nonempty_witness :
  (1 <= pixelCount five_pixels ->
     1 <= estimatedPaletteSize five_pixels 2 /\
     (forall bucketSize i,
        int_div (len (RedSortedImagePixels five_pixels)) (estimatedPaletteSize five_pixels 2)
          = Ok bucketSize ->
        0 <= i < estimatedPaletteSize five_pixels 2 ->
        let begin := GoInt.mul i bucketSize in
        let end_ := ClampAboveInt (GoInt.add begin bucketSize)
                      (len (RedSortedImagePixels five_pixels)) in
        0 <= begin /\ begin < end_ /\ end_ <= len (RedSortedImagePixels five_pixels)) /\
     exists palette, PaletteFromImage uint8_zero five_pixels 2 = Ok palette) /\
  (pixelCount five_pixels = 0 ->
     estimatedPaletteSize five_pixels 2 = 0 /\
     int_div (len (RedSortedImagePixels five_pixels)) (estimatedPaletteSize five_pixels 2)
       = Panic DivideByZero /\
     PaletteFromImage uint8_zero five_pixels 2 = Panic DivideByZero).
Proof.
  apply (PaletteFromImage_total_iff_nonempty uint8_zero five_pixels 2).
  vm_compute. discriminate.
Defined.

(** * Further properties of the code *)

(** ** The sorted pixel sequence *)

Lemma insert_by_R_Permutation c l : insert_by_R c l ≡ₚ c :: l.
Proof.
  induction l as [|d l IH]; [reflexivity|]. simpl.
  destruct (R c <? R d); [reflexivity|].
  rewrite IH. apply Permutation_swap.
Qed.

Lemma foldl_insert_Permutation l acc :
  foldl (fun acc c => insert_by_R c acc) acc l ≡ₚ acc ++ l.
Proof.
  revert acc. induction l as [|c l IH]; intros acc; simpl.
  - rewrite app_nil_r. reflexivity.
  - rewrite IH, insert_by_R_Permutation. apply Permutation_middle.
Qed.

Lemma sort_stable_by_R_Permutation l : sort_stable_by_R l ≡ₚ l.
Proof. unfold sort_stable_by_R. apply (foldl_insert_Permutation l []). Qed.

Lemma insert_by_R_sorted c l :
  StronglySorted le_R l -> StronglySorted le_R (insert_by_R c l).
Proof.
  induction 1 as [|d l Hl IH Hd]; simpl.
  - repeat constructor.
  - destruct (Z.ltb_spec (R c) (R d)) as [Hlt|Hge].
    + constructor; [constructor; assumption|].
      constructor; [unfold le_R; lia|].
      eapply Forall_impl; [exact Hd|]. unfold le_R. intros x Hx. lia.
    + constructor; [assumption|].
      rewrite insert_by_R_Permutation. constructor; [exact Hge | exact Hd].
Qed.

Lemma foldl_insert_sorted l acc :
  StronglySorted le_R acc ->
  StronglySorted le_R (foldl (fun acc c => insert_by_R c acc) acc l).
Proof.
  revert acc. induction l as [|c l IH]; intros acc H; simpl; [assumption|].
  apply IH, insert_by_R_sorted, H.
Qed.

Lemma filter_R_none (v : Z) (l : list RGBA) :
  Forall (fun p => R p <> v) l -> filter (fun p => R p = v) l = [].
Proof.
  induction 1 as [|d l Hd Hl IH]; [reflexivity|].
  rewrite filter_cons_False by exact Hd. exact IH.
Qed.

(** An insertion goes after the elements that have the same red value. *)
Lemma insert_by_R_filter (v : Z) c l :
  StronglySorted le_R l ->
  filter (fun p => R p = v) (insert_by_R c l)
  = filter (fun p => R p = v) l ++ filter (fun p => R p = v) [c].
Proof.
  induction 1 as [|d l Hl IH Hd]; [reflexivity|].
  simpl insert_by_R. destruct (Z.ltb_spec (R c) (R d)) as [Hlt|Hge].
  - destruct (decide (R c = v)) as [Hv|Hv].
    + rewrite (filter_R_none v (d :: l)).
      * rewrite (filter_cons_True _ c (d :: l)), (filter_cons_True _ c []) by exact Hv.
        rewrite filter_nil, filter_R_none; [reflexivity|].
        constructor; [lia|]. eapply Forall_impl; [exact Hd|].
        unfold le_R. intros x Hx. lia.
      * constructor; [lia|]. eapply Forall_impl; [exact Hd|].
        unfold le_R. intros x Hx. lia.
    + rewrite (filter_cons_False _ c) by exact Hv.
      rewrite (filter_cons_False _ c []) by exact Hv.
      rewrite filter_nil, app_nil_r. reflexivity.
  - rewrite !(filter_cons _ d), IH.
    destruct (decide (R d = v)); reflexivity.
Qed.

Lemma foldl_insert_filter (v : Z) l acc :
  StronglySorted le_R acc ->
  filter (fun p => R p = v) (foldl (fun acc c => insert_by_R c acc) acc l)
  = filter (fun p => R p = v) acc ++ filter (fun p => R p = v) l.
Proof.
  revert acc. induction l as [|c l IH]; intros acc H; simpl foldl.
  - rewrite filter_nil, app_nil_r. reflexivity.
  - rewrite IH by (apply insert_by_R_sorted, H).
    rewrite insert_by_R_filter by exact H.
    rewrite <- app_assoc, <- (filter_app _ [c] l). reflexivity.
Qed.

(** X1: the pixels that [RedSortedImagePixels] returns are the pixels of
    the image, each once, in ascending order of the red channel, and pixels
    of equal red value keep the raster order (the sort is stable). *)
Theorem RedSortedImagePixels_sorted_stable (img : Image) :
  StronglySorted le_R (RedSortedImagePixels img) /\
  RedSortedImagePixels img ≡ₚ raster_pixels img /\
  len (RedSortedImagePixels img) = pixelCount img /\
  (forall v : Z, filter (fun p => R p = v) (RedSortedImagePixels img)
                 = filter (fun p => R p = v) (raster_pixels img)).
Proof.
  unfold RedSortedImagePixels. fold (raster_pixels img). cbv zeta.
  split; [apply foldl_insert_sorted; constructor|].
  split; [apply sort_stable_by_R_Permutation|].
  split; [apply len_RedSortedImagePixels|].
  intros v. unfold sort_stable_by_R.
  rewrite foldl_insert_filter by constructor. reflexivity.
Qed.

(** ** Pixel colours *)




(** ** Colour addition *)

(** X3: on colours with [uint8] channels [Add] returns [uint8] channels,
    is commutative, is associative with any third colour (the channel sums
    are sums modulo 256), and is the exact channel-wise sum, with alpha 255,
    whenever no sum exceeds 255. *)
Theorem Add_exact_without_overflow (c1 c2 : RGBA) :
  wf_color c1 -> wf_color c2 ->
  wf_color (Add c1 c2) /\
  Add c1 c2 = Add c2 c1 /\
  (forall c3, Add (Add c1 c2) c3 = Add c1 (Add c2 c3)) /\
  (R c1 + R c2 <= 255 -> G c1 + G c2 <= 255 -> B c1 + B c2 <= 255 ->
   Add c1 c2 = mkRGBA (R c1 + R c2) (G c1 + G c2) (B c1 + B c2) 255).
Proof.
  unfold wf_color, is_uint8. intros (Hr1 & Hg1 & Hb1 & _) (Hr2 & Hg2 & Hb2 & _).
  unfold Add. rewrite !ClampU8_wrap8. cbn [R G B A].
  split; [|split; [|split]].
  - repeat split; try apply Z.mod_pos_bound; lia.
  - rewrite (Z.add_comm (R c2)), (Z.add_comm (G c2)), (Z.add_comm (B c2)). reflexivity.
  - intros c3. rewrite !ClampU8_wrap8, !Z.add_mod_idemp_l, !Z.add_mod_idemp_r, !Z.add_assoc by lia.
    reflexivity.
  - intros Hr Hg Hb. rewrite !Z.mod_small by lia. reflexivity.
Qed.

Lemma Add_exact_without_overflow_witness :
  wf_color (Add (mkRGBA 100 20 3 255) (mkRGBA 100 30 4 0)) /\
  Add (mkRGBA 100 20 3 255) (mkRGBA 100 30 4 0) = Add (mkRGBA 100 30 4 0) (mkRGBA 100 20 3 255) /\
  (forall c3, Add (Add (mkRGBA 100 20 3 255) (mkRGBA 100 30 4 0)) c3
              = Add (mkRGBA 100 20 3 255) (Add (mkRGBA 100 30 4 0) c3)) /\
  (100 + 100 <= 255 -> 20 + 30 <= 255 -> 3 + 4 <= 255 ->
   Add (mkRGBA 100 20 3 255) (mkRGBA 100 30 4 0) = mkRGBA (100 + 100) (20 + 30) (3 + 4) 255).
Proof.
  apply (Add_exact_without_overflow (mkRGBA 100 20 3 255) (mkRGBA 100 30 4 0));
    unfold wf_color, is_uint8; simpl; lia.
Defined.

(** ** More on the order of floats *)

Lemma SFeqb_refl x : SFeqb x x = SF_not_nan x.
Proof.
  unfold SFeqb, SFcompare. destruct x as [s|s| |s m e]; try destruct s; try reflexivity;
    rewrite Z.compare_refl; change (Pos.compare_cont Eq m m) with (Pos.compare m m);
    rewrite Pos.compare_refl; reflexivity.
Qed.

Lemma SFleb_refl x : SF_not_nan x = true -> SFleb x x = true.
Proof.
  rewrite <- SFeqb_refl. unfold SFeqb, SFleb.
  destruct (SFcompare x x) as [[]|]; congruence.
Qed.

Lemma SFleb_not_nan x y : SFleb x y = true -> SF_not_nan x = true /\ SF_not_nan y = true.
Proof.
  unfold SFleb, SFcompare. destruct x, y; try discriminate; split; reflexivity.
Qed.

Lemma SFltb_of_SFleb x y : SFleb y x = true -> SFltb x y = false.
Proof.
  unfold SFltb, SFleb, SFcompare.
  destruct x as [sx|sx| |sx mx ex], y as [sy|sy| |sy my ey];
    try destruct sx; try destruct sy; simpl; try discriminate; try reflexivity;
    change (Pos.compare_cont Eq) with Pos.compare;
    destruct (Z.compare_spec ex ey), (Z.compare_spec ey ex);
    try discriminate; try reflexivity; try lia;
    destruct (Pos.compare_spec mx my), (Pos.compare_spec my mx);
    try discriminate; try reflexivity; lia.
Qed.

Lemma SFeqb_of_SFltb x y : SFltb x y = true -> SFeqb y x = false.
Proof.
  unfold SFltb, SFeqb, SFcompare.
  destruct x as [sx|sx| |sx mx ex], y as [sy|sy| |sy my ey];
    try destruct sx; try destruct sy; simpl; try discriminate; try reflexivity;
    change (Pos.compare_cont Eq) with Pos.compare;
    destruct (Z.compare_spec ex ey), (Z.compare_spec ey ex);
    try discriminate; try reflexivity; try lia;
    destruct (Pos.compare_spec mx my), (Pos.compare_spec my mx);
    try discriminate; try reflexivity; lia.
Qed.

Lemma eqb_refl_not_nan (x : float) : (x =? x)%float = SF_not_nan (Prim2SF x).
Proof. rewrite FloatAxioms.eqb_spec. apply SFeqb_refl. Qed.

Lemma ClampF64_nan (x low high : float) : (x =? x)%float = false -> ClampF64 x low high = x.
Proof.
  unfold ClampF64. rewrite eqb_refl_not_nan, !FloatAxioms.ltb_spec.
  intros Hnan. destruct (Prim2SF x); try discriminate.
  unfold SFltb, SFcompare. destruct (Prim2SF low), (Prim2SF high); reflexivity.
Qed.

Lemma ClampF64_between (x low high : float) :
  (x =? x)%float = true -> (low <=? high)%float = true ->
  (low <=? ClampF64 x low high)%float = true /\ (ClampF64 x low high <=? high)%float = true.
Proof.
  unfold ClampF64. rewrite eqb_refl_not_nan, !FloatAxioms.ltb_spec, FloatAxioms.leb_spec.
  intros Hx Hlh. destruct (SFleb_not_nan _ _ Hlh) as [Hl Hh].
  destruct (SFltb (Prim2SF x) (Prim2SF low)) eqn:E1.
  { rewrite !FloatAxioms.leb_spec. split; [apply SFleb_refl, Hl | exact Hlh]. }
  destruct (SFltb (Prim2SF high) (Prim2SF x)) eqn:E2.
  { rewrite !FloatAxioms.leb_spec. split; [exact Hlh | apply SFleb_refl, Hh]. }
  rewrite !FloatAxioms.leb_spec. split; apply SFleb_of_not_SFltb; assumption.
Qed.

Lemma ClampF64_inside (x low high : float) :
  (low <=? x)%float = true -> (x <=? high)%float = true -> ClampF64 x low high = x.
Proof.
  unfold ClampF64. rewrite !FloatAxioms.ltb_spec, !FloatAxioms.leb_spec.
  intros H1 H2. rewrite (SFltb_of_SFleb _ _ H1), (SFltb_of_SFleb _ _ H2). reflexivity.
Qed.

(** X4: [ClampF64] does not clamp a NaN, which it returns as it is; any
    other value is brought into [low, high] when [low <= high], and a value
    that is already inside is returned unchanged. *)
Theorem ClampF64_bounds (x low high : float) :
  ((x =? x)%float = false -> ClampF64 x low high = x) /\
  ((x =? x)%float = true -> (low <=? high)%float = true ->
   (low <=? ClampF64 x low high)%float = true /\
   (ClampF64 x low high <=? high)%float = true) /\
  ((low <=? x)%float = true -> (x <=? high)%float = true -> ClampF64 x low high = x).
Proof.
  split; [apply ClampF64_nan|]. split; [apply ClampF64_between | apply ClampF64_inside].
Qed.

(** ** More on the colour distance *)

Lemma square_eq_0 d : d ^ 2 = 0 -> d = 0.
Proof. rewrite Z.pow_2_r. intros H. apply Z.mul_eq_0 in H. destruct H; assumption. Qed.

Lemma sqdist_0_iff c1 c2 : sqdist c1 c2 = 0 <-> same_rgb c1 c2.
Proof.
  unfold sqdist, same_rgb.
  assert (Hsq : forall d, 0 <= d ^ 2) by (intros d; rewrite Z.pow_2_r; apply Z.square_nonneg).
  pose proof (Hsq (R c1 - R c2)). pose proof (Hsq (G c1 - G c2)). pose proof (Hsq (B c1 - B c2)).
  split.
  - intros Hsum.
    assert (E1 : (R c1 - R c2) ^ 2 = 0) by lia.
    assert (E2 : (G c1 - G c2) ^ 2 = 0) by lia.
    assert (E3 : (B c1 - B c2) ^ 2 = 0) by lia.
    apply square_eq_0 in E1, E2, E3. lia.
  - intros (-> & -> & ->). rewrite !Z.sub_diag. reflexivity.
Qed.

Lemma sqdist_sym c1 c2 : sqdist c1 c2 = sqdist c2 c1.
Proof. unfold sqdist. ring. Qed.

Lemma sqrt_of_int_0 : sqrt_of_int 0 = 0%float.
Proof. vm_compute. reflexivity. Qed.

(** X5: on colours with [uint8] channels the distance is symmetric, lies
    in [0, 442), and is zero exactly when the two colours have the same
    R, G and B (alpha does not count). *)
Theorem ColorDistance_metric (c1 c2 : RGBA) :
  wf_color c1 -> wf_color c2 ->
  ColorDistance c1 c2 = ColorDistance c2 c1 /\
  (0 <=? ColorDistance c1 c2)%float = true /\
  (ColorDistance c1 c2 <? 442)%float = true /\
  ((ColorDistance c1 c2 =? 0)%float = true <-> same_rgb c1 c2).
Proof.
  intros H1 H2. rewrite (ColorDistance_exact c2 c1), (ColorDistance_exact c1 c2) by assumption.
  pose proof (sqdist_bounds c1 c2 H1 H2) as Hb.
  split; [rewrite sqdist_sym; reflexivity|].
  split; [rewrite <- sqrt_of_int_0; apply sqrt_of_int_leb; lia|].
  split.
  { destruct (Z.eq_dec (sqdist c1 c2) 195076) as [?|Hne]; [lia|].
    apply ltb_trans with (sqrt_of_int 195076);
      [apply sqrt_of_int_increasing; lia | vm_compute; reflexivity]. }
  rewrite <- sqdist_0_iff. split.
  - intros Heq. destruct (Z.eq_dec (sqdist c1 c2) 0) as [?|Hne]; [assumption|].
    assert (Hlt : (sqrt_of_int 0 <? sqrt_of_int (sqdist c1 c2))%float = true)
      by (apply sqrt_of_int_increasing; lia).
    rewrite sqrt_of_int_0, FloatAxioms.ltb_spec in Hlt. apply SFeqb_of_SFltb in Hlt.
    rewrite FloatAxioms.eqb_spec in Heq. congruence.
  - intros ->. rewrite sqrt_of_int_0. reflexivity.
Qed.

Lemma ColorDistance_metric_witness :
  ColorDistance black white = ColorDistance white black /\
  (0 <=? ColorDistance black white)%float = true /\
  (ColorDistance black white <? 442)%float = true /\
  ((ColorDistance black white =? 0)%float = true <-> same_rgb black white).
Proof.
  apply (ColorDistance_metric black white); unfold wf_color, is_uint8; simpl; lia.
Defined.

(** ** More on the nearest colour *)

Lemma scan_elem c rest st : snd (scan c rest st) ∈ snd st :: rest.
Proof.
  revert st. induction rest as [|p rest IH]; intros st; [left|].
  cbn [scan]. specialize (IH (if (ColorDistance c p <? fst st)%float then (ColorDistance c p, p) else st)).
  destruct (ColorDistance c p <? fst st)%float; cbn [snd] in IH.
  - right. exact IH.
  - apply elem_of_cons in IH as [->|IH]; [left | right; right; exact IH].
Qed.

(** X6: [NearestColor] panics with an index out of range on an empty
    palette, and on any other palette returns one of its entries, whatever
    the channel values are. *)
Theorem NearestColor_empty_or_member (c : RGBA) (palette : list RGBA) :
  (palette = [] -> NearestColor c palette = Panic IndexOutOfRange) /\
  (palette <> [] -> exists e, NearestColor c palette = Ok e /\ e ∈ palette).
Proof.
  split.
  - intros ->. reflexivity.
  - intros Hne. destruct palette as [|p0 rest]; [congruence|].
    rewrite NearestColor_scan. eexists. split; [reflexivity|].
    apply (scan_elem c rest (ColorDistance c p0, p0)).
Qed.

(** X7: when the palette holds a colour with the R, G, B of [c],
    [NearestColor] returns the first entry that has them: quantizing a
    palette colour gives that colour back. *)
Theorem NearestColor_exact_match (c p : RGBA) (palette : list RGBA) :
  wf_color c -> Forall wf_color palette -> p ∈ palette -> same_rgb c p ->
  exists i e,
    NearestColor c palette = Ok e /\ palette !! i = Some e /\ same_rgb c e /\
    (forall j e', (j < i)%nat -> palette !! j = Some e' -> ~ same_rgb c e').
Proof.
  intros Hc Hpal Hp Hsame. destruct palette as [|p0 rest]; [by apply elem_of_nil in Hp|].
  pose proof Hpal as Hall. apply Forall_cons in Hpal as [Hp0 Hrest].
  rewrite NearestColor_scan, (ColorDistance_exact c p0 Hc Hp0).
  destruct (scan_first_minimum c rest [p0] p0 0%nat Hc) as (i & e & He & Hi & Hle & Hlt).
  { by constructor. }
  { assumption. }
  { repeat split; [|intros j e' Hj; lia].
    intros j e' Hj. apply list_lookup_singleton_Some in Hj as [_ <-]. lia. }
  cbn [app] in *. exists i, e. rewrite He. split; [reflexivity|]. split; [assumption|].
  apply list_elem_of_lookup in Hp as [k Hk].
  apply sqdist_0_iff in Hsame.
  assert (He_wf : wf_color e).
  { rewrite Forall_forall in Hall. apply Hall. eapply list_elem_of_lookup_2, Hi. }
  pose proof (sqdist_bounds c e Hc He_wf). pose proof (Hle _ _ Hk).
  split; [apply sqdist_0_iff; lia|].
  intros j e' Hji Hj He'. apply sqdist_0_iff in He'. specialize (Hlt _ _ Hji Hj). lia.
Qed.

Lemma NearestColor_exact_match_witness :
  exists i e,
    NearestColor (mkRGBA 255 255 255 0) [black; white; white] = Ok e /\
    [black; white; white] !! i = Some e /\ same_rgb (mkRGBA 255 255 255 0) e /\
    (forall j e', (j < i)%nat -> [black; white; white] !! j = Some e' ->
                  ~ same_rgb (mkRGBA 255 255 255 0) e').
Proof.
  apply (NearestColor_exact_match (mkRGBA 255 255 255 0) white [black; white; white]).
  - unfold wf_color, is_uint8. simpl. lia.
  - repeat constructor; simpl; lia.
  - right. left.
  - repeat split.
Defined.

(** ** The Bayer coefficient at any coordinates *)

Lemma BayerCoefficient_index x y N :
  supported_order N ->
  BayerCoefficient x y N = coefficient_at N (Z.rem y N * N + Z.rem x N).
Proof.
  intros HN. unfold BayerCoefficient, coefficient_at, bayer_table.
  assert (HN' : 0 < N <= 8) by (destruct HN as [->|[->| ->]]; lia).
  replace (negb (N =? 2) && negb (N =? 4) && negb (N =? 8)) with false
    by (destruct HN as [->|[->| ->]]; reflexivity).
  pose proof (Z.rem_bound_abs x N ltac:(lia)).
  pose proof (Z.rem_bound_abs y N ltac:(lia)).
  unfold GoInt.add, GoInt.mul.
  rewrite (wrap_small (Z.rem y N * N)) by (unfold GoInt.in_range, GoInt.min_int, GoInt.max_int; nia).
  rewrite (wrap_small (Z.rem y N * N + Z.rem x N)) by (unfold GoInt.in_range, GoInt.min_int, GoInt.max_int; nia).
  rewrite (wrap_small (N * N)) by (unfold GoInt.in_range, GoInt.min_int, GoInt.max_int; nia).
  destruct HN as [->|[->| ->]]; reflexivity.
Qed.

(** X8: for a supported order the index [(y % N) * N + x % N] is formed
    with truncated remainders, so [BayerCoefficient] panics exactly when
    [y % N] is negative, or is zero with [x % N] negative; at a negative [x]
    in a row with [y % N > 0] nothing panics and the cell read is one of the
    row above. *)
Theorem BayerCoefficient_panics_iff (x y N : Z) :
  supported_order N ->
  (BayerCoefficient x y N = Panic IndexOutOfRange <->
   Z.rem y N < 0 \/ (Z.rem y N = 0 /\ Z.rem x N < 0)) /\
  (0 < Z.rem y N \/ (Z.rem y N = 0 /\ 0 <= Z.rem x N) ->
   exists coef, BayerCoefficient x y N = Ok coef /\
                coefficient_at N (Z.rem y N * N + Z.rem x N) = Ok coef).
Proof.
  intros HN. rewrite BayerCoefficient_index by assumption.
  assert (HN' : 0 < N <= 8) by (destruct HN as [->|[->| ->]]; lia).
  pose proof (Z.rem_bound_abs x N ltac:(lia)) as Hx.
  pose proof (Z.rem_bound_abs y N ltac:(lia)) as Hy.
  set (i := Z.rem y N * N + Z.rem x N).
  assert (Hneg : i < 0 <-> Z.rem y N < 0 \/ (Z.rem y N = 0 /\ Z.rem x N < 0)) by (unfold i; nia).
  assert (Hdef : 0 <= i -> exists coef, coefficient_at N i = Ok coef).
  { intros Hi. assert (Hi' : 0 <= i < N * N) by (unfold i in *; nia).
    pose proof (coefficient_at_in_range N i HN Hi') as Hc. unfold coefficient_in_range in Hc.
    destruct (coefficient_at N i) as [c|]; [eauto | discriminate]. }
  split.
  - rewrite <- Hneg. split.
    + intros Hp. destruct (Z.lt_ge_cases i 0) as [?|Hi]; [assumption|].
      destruct (Hdef Hi) as [c Hc]. congruence.
    + intros Hi. unfold coefficient_at, index.
      destruct (Z.ltb_spec i 0); [reflexivity | lia].
  - intros Hpos. destruct (Hdef ltac:(lia)) as [c Hc]. eauto.
Qed.

Lemma BayerCoefficient_panics_iff_witness :
  (BayerCoefficient (-1) 1 2 = Panic IndexOutOfRange <->
   Z.rem 1 2 < 0 \/ (Z.rem 1 2 = 0 /\ Z.rem (-1) 2 < 0)) /\
  (0 < Z.rem 1 2 \/ (Z.rem 1 2 = 0 /\ 0 <= Z.rem (-1) 2) ->
   exists coef, BayerCoefficient (-1) 1 2 = Ok coef /\
                coefficient_at 2 (Z.rem 1 2 * 2 + Z.rem (-1) 2) = Ok coef).
Proof. apply (BayerCoefficient_panics_iff (-1) 1 2). left. reflexivity. Defined.

(** X9: over one tile [0, N) x [0, N) of a supported order the
    coefficients are the levels [k / N^2 - 0.5] for [k = 0 .. N^2 - 1], each
    of them exactly once. *)
Theorem BayerCoefficient_tile_levels (N : Z) :
  supported_order N ->
  (fun p : Z * Z => BayerCoefficient p.1 p.2 N) <$> raster (mkRect 0 0 N N)
  ≡ₚ (fun k => Ok (float64_of_int k / float64_of_int (N * N) - 0.5)%float) <$> seqZ 0 (N * N).
Proof.
  intros HN.
  assert (H : exists zs,
    (fun p : Z * Z => BayerCoefficient p.1 p.2 N) <$> raster (mkRect 0 0 N N)
      = (fun k => Ok (float64_of_int k / float64_of_int (N * N) - 0.5)%float) <$> zs /\
    merge_sort Z.le zs = seqZ 0 (N * N)).
  { destruct HN as [->|[->| ->]].
    - exists [0; 2; 3; 1]. split; vm_compute; reflexivity.
    - exists [0; 8; 2; 10; 12; 4; 14; 6; 3; 11; 1; 9; 15; 7; 13; 5].
      split; vm_compute; reflexivity.
    - exists [ 0; 32;  8; 40;  2; 34; 10; 42;
              48; 16; 56; 24; 50; 18; 58; 26;
              12; 44;  4; 36; 14; 46;  6; 38;
              60; 28; 52; 20; 62; 30; 54; 22;
               3; 35; 11; 43;  1; 33;  9; 41;
              51; 19; 59; 27; 49; 17; 57; 25;
              15; 47;  7; 39; 13; 45;  5; 37;
              63; 31; 55; 23; 61; 29; 53; 21].
      split; vm_compute; reflexivity. }
  destruct H as (zs & -> & Hs). apply fmap_Permutation.
  rewrite <- Hs. symmetry. apply merge_sort_Permutation.
Qed.

Lemma BayerCoefficient_tile_levels_witness :
  (fun p : Z * Z => BayerCoefficient p.1 p.2 2) <$> raster (mkRect 0 0 2 2)
  ≡ₚ (fun k => Ok (float64_of_int k / float64_of_int (2 * 2) - 0.5)%float) <$> seqZ 0 (2 * 2).
Proof. apply (BayerCoefficient_tile_levels 2). left. reflexivity. Defined.

(** ** More on the mean colour of a range *)

Lemma uint8_of_float64_range u f : is_uint8 (uint8_of_float64 u f).
Proof.
  unfold uint8_of_float64, is_uint8, wrap8.
  destruct (float64_trunc f) as [z|]; [|apply Z.mod_pos_bound; lia].
  destruct (Z.leb_spec 0 z), (Z.leb_spec z 255); cbn [andb];
    try lia; apply Z.mod_pos_bound; lia.
Qed.

Lemma MeanColorOfRange_Ok u pixels b e c :
  MeanColorOfRange u pixels b e = Ok c -> wf_color c /\ A c = 255.
Proof.
  unfold MeanColorOfRange.
  destruct (for_loop b e _ _) as [[[r g] b']|]; cbn [mbind result_bind]; [|discriminate].
  intros [= <-]. unfold wf_color. cbn [R G B A].
  repeat split; try apply uint8_of_float64_range; lia.
Qed.

Lemma index_Panic {X : Type} (l : list X) i :
  index l i = Panic IndexOutOfRange <-> i < 0 \/ len l <= i.
Proof.
  unfold index, len. destruct (Z.ltb_spec i 0); [split; [lia | reflexivity]|].
  destruct (l !! Z.to_nat i) as [a|] eqn:E.
  - apply lookup_lt_Some in E. split; [discriminate | lia].
  - apply lookup_ge_None in E. split; [lia | reflexivity].
Qed.

Lemma index_cases {X : Type} (l : list X) i :
  index l i = Panic IndexOutOfRange \/ exists a, index l i = Ok a.
Proof.
  unfold index. destruct (i <? 0); [left; reflexivity|].
  destruct (l !! Z.to_nat i); [right; eauto | left; reflexivity].
Qed.

Lemma for_each_panics {S : Type} (p : panic) (l : list Z) (body : Z -> S -> result S) s :
  (forall i s, i ∈ l -> body i s = Panic p \/ exists s', body i s = Ok s') ->
  (exists i, i ∈ l /\ forall s, body i s = Panic p) ->
  for_each l body s = Panic p.
Proof.
  revert s. induction l as [|i l IH]; intros s Hall (i0 & Hi0 & Hp).
  - by apply elem_of_nil in Hi0.
  - cbn [for_each]. destruct (Hall i s) as [E|[s' E]]; [left | |]; rewrite E; [reflexivity|].
    cbn [mbind result_bind]. apply IH.
    + intros j s2 Hj. apply Hall. by right.
    + apply elem_of_cons in Hi0 as [->|Hi0]; [rewrite Hp in E; discriminate|].
      exists i0. split; assumption.
Qed.

Lemma MeanColorOfRange_returns u pixels b e :
  e <= b \/ (0 <= b /\ e <= len pixels) ->
  exists c, MeanColorOfRange u pixels b e = Ok c.
Proof.
  intros [Hle|[Hb He]].
  - unfold MeanColorOfRange, for_loop. rewrite seqZ_nil by lia.
    cbn [for_each mbind result_bind]. eauto.
  - destruct (MeanColorOfRange_total u pixels b e Hb He) as [c [Hc _]]. eauto.
Qed.

Lemma MeanColorOfRange_leaves u pixels b e :
  range_leaves_slice pixels b e -> MeanColorOfRange u pixels b e = Panic IndexOutOfRange.
Proof.
  intros [Hbe Hout]. unfold MeanColorOfRange, for_loop.
  rewrite (for_each_panics IndexOutOfRange); [reflexivity | |].
  - intros j [[r g] b'] _. destruct (index_cases pixels j) as [->|[a ->]];
      [left; reflexivity | right; cbn [mbind result_bind]; eauto].
  - pose proof (Zle_0_nat (length pixels)) as Hlen. fold (len pixels) in Hlen.
    exists (if b <? 0 then b else Z.max b (len pixels)). split.
    + apply elem_of_seqZ. destruct (Z.ltb_spec b 0); lia.
    + intros [[r g] b'].
      assert (Hp : index pixels (if b <? 0 then b else Z.max b (len pixels))
                   = Panic IndexOutOfRange).
      { apply index_Panic. destruct (Z.ltb_spec b 0); lia. }
      rewrite Hp. reflexivity.
Qed.

(** X10: [MeanColorOfRange] panics with an index out of range exactly
    on the non-empty ranges that leave the slice; on every other range it
    returns a colour with [uint8] channels and alpha 255; and on an empty
    range [begin = end] the three channels are the conversion of the NaN
    [0 / 0], which Go leaves to the implementation. *)
Theorem MeanColorOfRange_panics_iff (u : float -> Z) (pixels : list RGBA) (b e : Z) :
  (MeanColorOfRange u pixels b e = Panic IndexOutOfRange <-> range_leaves_slice pixels b e) /\
  (~ range_leaves_slice pixels b e ->
   exists c, MeanColorOfRange u pixels b e = Ok c /\ wf_color c /\ A c = 255) /\
  (b = e ->
   MeanColorOfRange u pixels b e
   = Ok (mkRGBA (wrap8 (u nan)) (wrap8 (u nan)) (wrap8 (u nan)) 255)).
Proof.
  assert (Hret : ~ range_leaves_slice pixels b e ->
                 exists c, MeanColorOfRange u pixels b e = Ok c).
  { intros Hn. apply MeanColorOfRange_returns. unfold range_leaves_slice in Hn. lia. }
  split; [|split].
  - split; [|apply MeanColorOfRange_leaves].
    intros Hp. destruct (Z.lt_ge_cases b e) as [Hbe|Hbe].
    + split; [assumption|].
      destruct (Z.lt_ge_cases b 0) as [?|Hb]; [left; assumption|].
      destruct (Z.lt_ge_cases (len pixels) e) as [?|He]; [right; assumption|].
      destruct Hret as [c Hc]; [unfold range_leaves_slice; lia | congruence].
    + destruct Hret as [c Hc]; [unfold range_leaves_slice; lia | congruence].
  - intros Hn. destruct (Hret Hn) as [c Hc]. exists c. split; [assumption|].
    eapply MeanColorOfRange_Ok, Hc.
  - intros <-. unfold MeanColorOfRange, for_loop, GoInt.sub.
    rewrite Z.sub_diag, seqZ_nil by lia. cbn [for_each mbind result_bind].
    change (float64_of_int (GoInt.wrap 0)) with (float64_of_int 0).
    replace (0 / float64_of_int 0)%float with nan by (vm_compute; reflexivity).
    reflexivity.
Qed.

Lemma mean_of_one u v : is_uint8 v ->
  uint8_of_float64 u ((0 + float64_of_int v) / float64_of_int 1)%float = v.
Proof.
  intros Hv.
  assert (H : mean_of_one_check v = true).
  { apply (forallb_seqZ mean_of_one_check 0 256); [vm_compute; reflexivity | exact Hv]. }
  unfold mean_of_one_check in H. unfold uint8_of_float64.
  destruct (float64_trunc _) as [z|]; [|discriminate].
  apply Z.eqb_eq in H. subst z. unfold is_uint8 in Hv.
  destruct (Z.leb_spec 0 v), (Z.leb_spec v 255); cbn [andb]; try lia; reflexivity.
Qed.

Lemma MeanColorOfRange_one u pixels b p :
  0 <= b -> pixels !! Z.to_nat b = Some p -> wf_color p ->
  MeanColorOfRange u pixels b (b + 1) = Ok (opaque p).
Proof.
  intros Hb Hp (Hr & Hg & Hbl & _). unfold MeanColorOfRange, for_loop, GoInt.sub.
  replace (b + 1 - b) with 1 by lia.
  rewrite seqZ_cons, seqZ_nil by lia. cbn [for_each].
  assert (Hi : index pixels b = Ok p) by (apply index_Ok; split; assumption).
  rewrite Hi. cbn [mbind result_bind].
  change (GoInt.wrap 1) with 1.
  rewrite !mean_of_one by assumption. reflexivity.
Qed.

(** X11: the mean of a range of one pixel is that pixel with alpha
    255: the float sum and quotient are exact on one [uint8] value. *)
Theorem MeanColorOfRange_single_pixel (u : float -> Z) (pixels : list RGBA) (b : Z) (p : RGBA) :
  0 <= b -> pixels !! Z.to_nat b = Some p -> wf_color p ->
  MeanColorOfRange u pixels b (b + 1) = Ok (mkRGBA (R p) (G p) (B p) 255).
Proof. intros Hb Hp Hwf. apply MeanColorOfRange_one; assumption. Qed.

Lemma MeanColorOfRange_single_pixel_witness :
  MeanColorOfRange uint8_zero [black; mkRGBA 12 34 56 78; white] 1 (1 + 1)
  = Ok (mkRGBA 12 34 56 255).
Proof.
  apply (MeanColorOfRange_single_pixel uint8_zero [black; mkRGBA 12 34 56 78; white] 1
           (mkRGBA 12 34 56 78)).
  - lia.
  - reflexivity.
  - unfold wf_color, is_uint8. simpl. lia.
Defined.

(** ** More on the palette *)

Lemma RedSortedImagePixels_wf img : Forall wf_color (RedSortedImagePixels img).
Proof.
  unfold RedSortedImagePixels. rewrite sort_stable_by_R_Permutation.
  apply Forall_fmap, Forall_forall. intros [x y] _. apply PixelColor_wf.
Qed.

Lemma Forall2_functional {X Y : Type} (P : X -> Y -> Prop) (l : list X) (k1 k2 : list Y) :
  (forall x y1 y2, P x y1 -> P x y2 -> y1 = y2) ->
  Forall2 P l k1 -> Forall2 P l k2 -> k1 = k2.
Proof.
  intros Hf H1. revert k2. induction H1 as [|x y1 l k1 Hxy _ IH]; intros k2 H2.
  - by apply Forall2_nil_inv_l in H2.
  - apply Forall2_cons_inv_l in H2 as (y2 & k2' & Hxy2 & H2 & ->).
    f_equal; [eapply Hf; eassumption | apply IH, H2].
Qed.

(** X12: when the image has no more pixels than the palette may have
    colours, every bucket is one pixel and the palette is the red-sorted
    pixel sequence itself, with alpha set to 255. *)
Theorem PaletteFromImage_small_image (u : float -> Z) (img : Image) (k : Z) :
  1 <= pixelCount img <= GoInt.max_int -> pixelCount img <= Z.max k 2 ->
  PaletteFromImage u img k = Ok (opaque <$> RedSortedImagePixels img).
Proof.
  intros Hn Hk.
  destruct (PaletteFromImage_buckets u img k Hn) as (Heps & _ & _ & palette & -> & HF).
  cbv zeta in HF. rewrite Heps in HF.
  replace (Z.min (Z.max k 2) (pixelCount img)) with (pixelCount img) in HF by lia.
  rewrite Z.div_same in HF by lia.
  f_equal. eapply Forall2_functional; [|exact HF|].
  { intros i c1 c2 H1 H2. congruence. }
  apply Forall2_same_length_lookup_2.
  - rewrite length_seqZ, length_fmap. pose proof (len_RedSortedImagePixels img) as Hl.
    unfold len in Hl. lia.
  - intros j i c Hi Hc. apply lookup_seqZ in Hi as [-> Hj].
    apply list_lookup_fmap_Some in Hc as (p & -> & Hp).
    replace ((0 + Z.of_nat j) * 1) with (Z.of_nat j) by lia.
    apply MeanColorOfRange_one; [lia | rewrite Nat2Z.id; exact Hp |].
    pose proof (RedSortedImagePixels_wf img) as Hwf. rewrite Forall_forall in Hwf.
    apply Hwf. eapply list_elem_of_lookup_2, Hp.
Qed.

Lemma PaletteFromImage_small_image_witness :
  PaletteFromImage uint8_zero five_pixels 7 = Ok (opaque <$> RedSortedImagePixels five_pixels).
Proof.
  apply (PaletteFromImage_small_image uint8_zero five_pixels 7).
  - unfold GoInt.max_int. vm_compute. split; discriminate.
  - vm_compute. discriminate.
Defined.

Lemma for_each_invariant {S : Type} (P : S -> Prop) (l : list Z) (body : Z -> S -> result S) s s' :
  P s -> (forall i s1 s2, i ∈ l -> body i s1 = Ok s2 -> P s1 -> P s2) ->
  for_each l body s = Ok s' -> P s'.
Proof.
  revert s. induction l as [|i l IH]; intros s Hs Hbody; cbn [for_each].
  - intros [= <-]. exact Hs.
  - destruct (body i s) as [s1|] eqn:E; cbn [mbind result_bind]; [|discriminate].
    apply IH.
    + eapply Hbody; [left | exact E | exact Hs].
    + intros j s2 s3 Hj. apply Hbody. by right.
Qed.

Lemma PaletteFromImage_Ok u img k palette :
  PaletteFromImage u img k = Ok palette ->
  Forall (fun c => wf_color c /\ A c = 255) palette /\ len palette <= Z.max k 2.
Proof.
  unfold PaletteFromImage. rewrite ClampBelowInt_max, ClampAboveInt_min.
  set (pixels := RedSortedImagePixels img). set (eps := Z.min (Z.max k 2) (len pixels)).
  destruct (int_div (len pixels) eps) as [bs|]; cbn [mbind result_bind]; [|discriminate].
  unfold for_loop. rewrite Z.sub_0_r. intros H.
  assert (Hwf : Forall (fun c => wf_color c /\ A c = 255) palette).
  { revert H. apply (for_each_invariant (fun p => Forall (fun c => wf_color c /\ A c = 255) p)).
    - constructor.
    - intros i s1 s2 _ Hb Hs1.
      destruct (MeanColorOfRange u pixels _ _) as [c|] eqn:E; [|discriminate].
      cbn [mbind result_bind] in Hb. injection Hb as <-.
      apply Forall_app. split; [exact Hs1|].
      apply Forall_singleton. eapply MeanColorOfRange_Ok, E. }
  split; [exact Hwf|].
  assert (Hlen : forall l acc r,
    for_each l (fun i palette =>
        c ← MeanColorOfRange u pixels (GoInt.mul i bs)
              (ClampAboveInt (GoInt.add (GoInt.mul i bs) bs) (len pixels));
        Ok (palette ++ [c])) acc = Ok r ->
    length r = (length acc + length l)%nat).
  { clear. induction l as [|i l IH]; intros acc r; cbn [for_each].
    - intros [= <-]. simpl. lia.
    - destruct (MeanColorOfRange u pixels _ _) as [c|]; cbn [mbind result_bind]; [|discriminate].
      intros Hr. apply IH in Hr. rewrite length_app in Hr. simpl in *. lia. }
  apply Hlen in H. rewrite length_seqZ in H. unfold len. simpl in H. lia.
Qed.

(** X13: every entry of a palette that [PaletteFromImage] returns has
    [uint8] channels and alpha 255, and the palette has at most
    [max paletteMaxSize 2] entries: with [paletteMaxSize = 1] it can have
    two. *)
Theorem PaletteFromImage_entries (u : float -> Z) (img : Image) (k : Z) (palette : list RGBA) :
  PaletteFromImage u img k = Ok palette ->
  Forall (fun c => wf_color c /\ A c = 255) palette /\
  len palette <= Z.max k 2 /\ (2 <= k -> len palette <= k).
Proof.
  intros H. apply PaletteFromImage_Ok in H as [Hwf Hlen].
  split; [assumption|]. split; [assumption | lia].
Qed.

Lemma PaletteFromImage_entries_witness :
  Forall (fun c => wf_color c /\ A c = 255) [mkRGBA 15 7 9 255; mkRGBA 35 7 9 255] /\
  len [mkRGBA 15 7 9 255; mkRGBA 35 7 9 255] <= Z.max 1 2 /\
  (2 <= 1 -> len [mkRGBA 15 7 9 255; mkRGBA 35 7 9 255] <= 1).
Proof.
  apply (PaletteFromImage_entries uint8_zero five_pixels 1). vm_compute. reflexivity.
Defined.

(** ** More on the driver *)

Lemma NearestColor_Ok_member c palette e : NearestColor c palette = Ok e -> e ∈ palette.
Proof.
  destruct palette as [|p0 rest]; [discriminate|].
  rewrite NearestColor_scan. intros [= <-].
  apply (scan_elem c rest (ColorDistance c p0, p0)).
Qed.

Lemma for_each_set_Ok (xs : list Z) (y : Z) (f : Z -> result RGBA) (o o' : RGBAImage) :
  for_each xs (fun x o => c ← f x; Ok (RGBA_Set o x y c)) o = Ok o' ->
  forall x, x ∈ xs -> exists c, f x = Ok c.
Proof.
  revert o. induction xs as [|x0 xs IH]; intros o H x Hx; [by apply elem_of_nil in Hx|].
  cbn [for_each] in H. destruct (f x0) as [c|] eqn:E; cbn [mbind result_bind] in H; [|discriminate].
  apply elem_of_cons in Hx as [->|Hx]; [eauto | eapply IH; eassumption].
Qed.

Lemma for_each_rows_Ok (ys xs : list Z) (f : Z -> Z -> result RGBA) (o o' : RGBAImage) :
  for_each ys (fun y o => for_each xs (fun x o => c ← f x y; Ok (RGBA_Set o x y c)) o) o = Ok o' ->
  forall x y, x ∈ xs -> y ∈ ys -> exists c, f x y = Ok c.
Proof.
  revert o. induction ys as [|y0 ys IH]; intros o H x y Hx Hy; [by apply elem_of_nil in Hy|].
  cbn [for_each] in H.
  destruct (for_each xs _ o) as [o1|] eqn:E; cbn [mbind result_bind] in H; [|discriminate].
  apply elem_of_cons in Hy as [->|Hy].
  - eapply (for_each_set_Ok xs y0 (fun x => f x y0)); eassumption.
  - eapply IH; eassumption.
Qed.

(** X14: whenever [QuantizeImage] returns, the output has the bounds of
    the input and every pixel inside them is an entry of the palette built
    from the input, with alpha 255: the output has at most
    [max paletteMaxSize 2] colours. *)
Theorem QuantizeImage_palette_only (u : float -> Z) (img : Image) (k m : Z) (out : RGBAImage) :
  QuantizeImage u img k m = Ok out ->
  exists palette,
    PaletteFromImage u img k = Ok palette /\ len palette <= Z.max k 2 /\
    Rect out = Bounds img /\
    forall x y, In_rect x y (Bounds img) = true ->
      RGBAAt out x y ∈ palette /\ wf_color (RGBAAt out x y) /\ A (RGBAAt out x y) = 255.
Proof.
  unfold QuantizeImage. set (b := Bounds img).
  destruct (PaletteFromImage u img k) as [palette|] eqn:Epal; cbn [mbind result_bind]; [|discriminate].
  destruct (PaletteFromImage_Ok u img k palette Epal) as [Hwf Hlen].
  unfold NewRGBA. destruct (mul3NonNeg 4 (Dx b) (Dy b) <? 0); cbn [mbind result_bind]; [discriminate|].
  unfold for_loop.
  rewrite (for_each_ext _ _
    (fun y o => for_each (seqZ (MinX b) (MaxX b - MinX b))
                  (fun x o => c ← pixel_out u img palette m x y;
                              Ok (RGBA_Set o x y c)) o)).
  2:{ intros y o _. apply for_each_ext. intros x o' _. unfold pixel_out.
      destruct (BayerDithering u (PixelColor img x y) x y (len palette) m); reflexivity. }
  intros H. pose proof (for_each_rows_Ok _ _ _ _ _ H) as Hall.
  rewrite for_each_rows in H.
  2:{ cbn [Rect]. intros x y Hx Hy. split; [|apply Hall; assumption].
      apply elem_of_seqZ in Hx, Hy.
      unfold In_rect. rewrite !andb_true_iff, !Z.leb_le, !Z.ltb_lt. lia. }
  cbn [Rect Pix] in H. rewrite app_nil_r, <- raster_rows in H. injection H as <-.
  exists palette. split; [reflexivity|]. split; [assumption|]. split; [reflexivity|].
  intros x y Hin. unfold RGBAAt. cbn [Rect Pix]. rewrite Hin.
  unfold writes_of. rewrite <- fmap_reverse.
  fold (writes_of (fun x y => value_or_zero (pixel_out u img palette m x y)) (reverse (raster b))).
  rewrite last_write_writes by (apply elem_of_reverse, elem_of_raster, Hin).
  destruct (Hall x y) as [c Hc].
  { unfold In_rect in Hin. rewrite !andb_true_iff, !Z.leb_le, !Z.ltb_lt in Hin.
    apply elem_of_seqZ. lia. }
  { unfold In_rect in Hin. rewrite !andb_true_iff, !Z.leb_le, !Z.ltb_lt in Hin.
    apply elem_of_seqZ. lia. }
  rewrite Hc. cbn [value_or_zero].
  assert (Hmem : c ∈ palette).
  { unfold pixel_out in Hc.
    destruct (BayerDithering u (PixelColor img x y) x y (len palette) m) as [d|];
      cbn [mbind result_bind] in Hc; [|discriminate].
    eapply NearestColor_Ok_member, Hc. }
  split; [assumption|]. rewrite Forall_forall in Hwf. apply Hwf, Hmem.
Qed.

Lemma QuantizeImage_palette_only_witness :
  exists palette,
    PaletteFromImage uint8_zero five_pixels 2 = Ok palette /\ len palette <= Z.max 2 2 /\
    Rect (mkRGBAImage (mkRect 0 0 5 1)
            [((4, 0), mkRGBA 15 7 9 255); ((3, 0), mkRGBA 35 7 9 255);
             ((2, 0), mkRGBA 15 7 9 255); ((1, 0), mkRGBA 15 7 9 255);
             ((0, 0), mkRGBA 35 7 9 255)]) = Bounds five_pixels /\
    forall x y, In_rect x y (Bounds five_pixels) = true ->
      RGBAAt (mkRGBAImage (mkRect 0 0 5 1)
            [((4, 0), mkRGBA 15 7 9 255); ((3, 0), mkRGBA 35 7 9 255);
             ((2, 0), mkRGBA 15 7 9 255); ((1, 0), mkRGBA 15 7 9 255);
             ((0, 0), mkRGBA 35 7 9 255)]) x y ∈ palette /\
      wf_color (RGBAAt (mkRGBAImage (mkRect 0 0 5 1)
            [((4, 0), mkRGBA 15 7 9 255); ((3, 0), mkRGBA 35 7 9 255);
             ((2, 0), mkRGBA 15 7 9 255); ((1, 0), mkRGBA 15 7 9 255);
             ((0, 0), mkRGBA 35 7 9 255)]) x y) /\
      A (RGBAAt (mkRGBAImage (mkRect 0 0 5 1)
            [((4, 0), mkRGBA 15 7 9 255); ((3, 0), mkRGBA 35 7 9 255);
             ((2, 0), mkRGBA 15 7 9 255); ((1, 0), mkRGBA 15 7 9 255);
             ((0, 0), mkRGBA 35 7 9 255)]) x y) = 255.
Proof.
  apply (QuantizeImage_palette_only uint8_zero five_pixels 2 2). vm_compute. reflexivity.
Defined.

(** ** Colour scaling and the gradient *)

Lemma not_nan_false x : SF_not_nan x = false -> x = S754_nan.
Proof. destruct x; try discriminate; reflexivity. Qed.

Lemma SFle_0_cases x :
  SFleb x (S754_zero false) = true -> SFltb x (S754_zero false) = false ->
  exists s, x = S754_zero s.
Proof.
  destruct x as [s|s| |s m e]; try destruct s; try discriminate; eauto.
Qed.

Lemma SFge_1_cases x :
  SFleb (Prim2SF 1) x = true ->
  SFltb x (S754_zero false) = false /\
  (SFltb (Prim2SF 1) x = false -> x = Prim2SF 1).
Proof.
  remember (Prim2SF 1) as one eqn:E. vm_compute in E. subst one.
  destruct x as [s|s| |s m e]; try destruct s; try discriminate;
    intros H; (split; [reflexivity|]); try discriminate.
  revert H. unfold SFleb, SFltb, SFcompare.
  change (Pos.compare_cont Eq) with Pos.compare.
  destruct (Z.compare_spec (-52) e) as [<-|_|_]; try discriminate.
  destruct (Pos.compare_spec 4503599627370496 m) as [<-|_|_]; try discriminate.
  reflexivity.
Qed.

Lemma le_0_cases (lambda : float) :
  (lambda <=? 0)%float = true ->
  (lambda <? 0)%float = true \/ lambda = 0%float \/ lambda = (-0)%float.
Proof.
  rewrite FloatAxioms.leb_spec. intros Hle.
  destruct (lambda <? 0)%float eqn:Hlt; [left; reflexivity | right].
  rewrite FloatAxioms.ltb_spec in Hlt.
  remember (Prim2SF 0) as z eqn:E. vm_compute in E. subst z.
  destruct (SFle_0_cases _ Hle Hlt) as [s Hs].
  rewrite <- (SF2Prim_Prim2SF lambda), Hs. destruct s; [right | left]; reflexivity.
Qed.

Lemma ge_1_cases (lambda : float) :
  (1 <=? lambda)%float = true ->
  (lambda <? 0)%float = false /\ ((1 <? lambda)%float = true \/ lambda = 1%float).
Proof.
  rewrite FloatAxioms.leb_spec. intros Hle.
  rewrite !FloatAxioms.ltb_spec.
  remember (Prim2SF 0) as z eqn:E. vm_compute in E. subst z.
  destruct (SFge_1_cases _ Hle) as [H0 H1]. split; [assumption|].
  destruct (SFltb (Prim2SF 1) (Prim2SF lambda)); [left; reflexivity | right].
  apply Prim2SF_inj. apply H1. reflexivity.
Qed.

Lemma scale_by_zero u v : is_uint8 v ->
  uint8_of_float64 u (0 * float64_of_int v)%float = 0 /\
  uint8_of_float64 u ((-0) * float64_of_int v)%float = 0.
Proof.
  intros Hv.
  assert (H : scale_by_zero_check v = true).
  { apply (forallb_seqZ scale_by_zero_check 0 256); [vm_compute; reflexivity | exact Hv]. }
  unfold scale_by_zero_check in H. unfold uint8_of_float64.
  destruct (float64_trunc (0 * _)) as [[| |]|]; try discriminate.
  destruct (float64_trunc ((-0) * _)) as [[| |]|]; try discriminate.
  split; reflexivity.
Qed.

Lemma scale_by_one u v : is_uint8 v ->
  uint8_of_float64 u (1 * float64_of_int v)%float = v.
Proof.
  intros Hv.
  assert (H : scale_by_one_check v = true).
  { apply (forallb_seqZ scale_by_one_check 0 256); [vm_compute; reflexivity | exact Hv]. }
  unfold scale_by_one_check in H. unfold uint8_of_float64.
  destruct (float64_trunc _) as [z|]; [|discriminate].
  apply Z.eqb_eq in H. subst z. unfold is_uint8 in Hv.
  destruct (Z.leb_spec 0 v), (Z.leb_spec v 255); cbn [andb]; try lia; reflexivity.
Qed.

Lemma ScalMult_zero u lambda c :
  wf_color c -> (lambda <=? 0)%float = true -> ScalMult u lambda c = mkRGBA 0 0 0 (A c).
Proof.
  intros (Hr & Hg & Hb & _) Hle. unfold ScalMult.
  destruct (scale_by_zero u (R c) Hr) as [Er Er'].
  destruct (scale_by_zero u (G c) Hg) as [Eg Eg'].
  destruct (scale_by_zero u (B c) Hb) as [Eb Eb'].
  destruct (le_0_cases lambda Hle) as [-> |[-> | ->]].
  - rewrite Er, Eg, Eb. reflexivity.
  - change (0 <? 0)%float with false. change (1 <? 0)%float with false. cbv iota.
    rewrite Er, Eg, Eb. reflexivity.
  - change ((-0) <? 0)%float with false. change (1 <? (-0))%float with false. cbv iota.
    rewrite Er', Eg', Eb'. reflexivity.
Qed.

Lemma ScalMult_one u lambda c :
  wf_color c -> (1 <=? lambda)%float = true -> ScalMult u lambda c = c.
Proof.
  intros (Hr & Hg & Hb & _) Hle. unfold ScalMult.
  destruct (ge_1_cases lambda Hle) as [-> H1].
  assert (E : (if (1 <? lambda)%float then 1%float else lambda) = 1%float).
  { destruct H1 as [-> | ->]; reflexivity. }
  rewrite E, !scale_by_one by assumption. destruct c; reflexivity.
Qed.

Lemma mul_nan (lambda x : float) : (lambda =? lambda)%float = false -> (lambda * x)%float = nan.
Proof.
  rewrite eqb_refl_not_nan. intros H. apply not_nan_false in H.
  apply Prim2SF_inj. rewrite FloatAxioms.mul_spec, H. reflexivity.
Qed.

Lemma ScalMult_nan u lambda c :
  (lambda =? lambda)%float = false ->
  ScalMult u lambda c = mkRGBA (wrap8 (u nan)) (wrap8 (u nan)) (wrap8 (u nan)) (A c).
Proof.
  intros Hnan. unfold ScalMult.
  pose proof Hnan as H. rewrite eqb_refl_not_nan in H. apply not_nan_false in H.
  rewrite !FloatAxioms.ltb_spec, H.
  change (SFltb S754_nan (Prim2SF 0)) with false.
  replace (SFltb (Prim2SF 1) S754_nan) with false by (vm_compute; reflexivity).
  cbv iota. rewrite !mul_nan by assumption. reflexivity.
Qed.

(** X15: [ScalMult] keeps alpha and returns [uint8] channels. Any
    [lambda <= 0] (also -0) gives black, any [lambda >= 1] (also
    +infinity) gives the colour back, and a NaN is not clamped: the three
    channels are then the conversion of a NaN, which Go leaves to the
    implementation. *)
Theorem ScalMult_endpoints (u : float -> Z) (lambda : float) (c : RGBA) :
  wf_color c ->
  wf_color (ScalMult u lambda c) /\ A (ScalMult u lambda c) = A c /\
  ((lambda <=? 0)%float = true -> ScalMult u lambda c = mkRGBA 0 0 0 (A c)) /\
  ((1 <=? lambda)%float = true -> ScalMult u lambda c = c) /\
  ((lambda =? lambda)%float = false ->
   ScalMult u lambda c = mkRGBA (wrap8 (u nan)) (wrap8 (u nan)) (wrap8 (u nan)) (A c)).
Proof.
  intros Hwf. split; [|split; [reflexivity|split; [|split]]].
  - destruct Hwf as (_ & _ & _ & Ha). unfold ScalMult, wf_color. cbn [R G B A].
    repeat split; try apply uint8_of_float64_range; apply Ha.
  - apply ScalMult_zero, Hwf.
  - apply ScalMult_one, Hwf.
  - apply ScalMult_nan.
Qed.

Lemma ScalMult_endpoints_witness :
  wf_color (ScalMult uint8_zero infinity (mkRGBA 12 34 56 78)) /\
  A (ScalMult uint8_zero infinity (mkRGBA 12 34 56 78)) = A (mkRGBA 12 34 56 78) /\
  ((infinity <=? 0)%float = true ->
   ScalMult uint8_zero infinity (mkRGBA 12 34 56 78) = mkRGBA 0 0 0 (A (mkRGBA 12 34 56 78))) /\
  ((1 <=? infinity)%float = true ->
   ScalMult uint8_zero infinity (mkRGBA 12 34 56 78) = mkRGBA 12 34 56 78) /\
  ((infinity =? infinity)%float = false ->
   ScalMult uint8_zero infinity (mkRGBA 12 34 56 78)
   = mkRGBA (wrap8 (uint8_zero nan)) (wrap8 (uint8_zero nan)) (wrap8 (uint8_zero nan))
            (A (mkRGBA 12 34 56 78))).
Proof.
  apply (ScalMult_endpoints uint8_zero infinity (mkRGBA 12 34 56 78)).
  unfold wf_color, is_uint8. simpl. lia.
Defined.

Lemma Add_black c a : wf_color c -> Add c (mkRGBA 0 0 0 a) = opaque c /\ Add (mkRGBA 0 0 0 a) c = opaque c.
Proof.
  intros (Hr & Hg & Hb & _). unfold Add, opaque, is_uint8 in *. cbn [R G B A].
  rewrite !ClampU8_wrap8, !Z.add_0_r, !Z.add_0_l, !Z.mod_small by lia.
  split; reflexivity.
Qed.

(** X16: at the ends of the gradient [LinearGradient] returns one of
    its colours with alpha 255: the first for [s >= 1, t <= 0], the second
    for [s <= 0, t >= 1]; with both factors at least 1 it is [Add], whose
    channel sums wrap; the alpha of the result is 255 in every case. *)
Theorem LinearGradient_endpoints (u : float -> Z) (s t : float) (c1 c2 : RGBA) :
  wf_color c1 -> wf_color c2 ->
  A (LinearGradient u s c1 t c2) = 255 /\
  ((1 <=? s)%float = true -> (t <=? 0)%float = true ->
   LinearGradient u s c1 t c2 = mkRGBA (R c1) (G c1) (B c1) 255) /\
  ((s <=? 0)%float = true -> (1 <=? t)%float = true ->
   LinearGradient u s c1 t c2 = mkRGBA (R c2) (G c2) (B c2) 255) /\
  ((1 <=? s)%float = true -> (1 <=? t)%float = true ->
   LinearGradient u s c1 t c2 = Add c1 c2).
Proof.
  intros H1 H2. unfold LinearGradient. split; [reflexivity|]. split; [|split].
  - intros Hs Ht. rewrite (ScalMult_one u s c1 H1 Hs), (ScalMult_zero u t c2 H2 Ht).
    apply Add_black, H1.
  - intros Hs Ht. rewrite (ScalMult_zero u s c1 H1 Hs), (ScalMult_one u t c2 H2 Ht).
    apply Add_black, H2.
  - intros Hs Ht. rewrite (ScalMult_one u s c1 H1 Hs), (ScalMult_one u t c2 H2 Ht).
    reflexivity.
Qed.

Lemma LinearGradient_endpoints_witness :
  A (LinearGradient uint8_zero 1 (mkRGBA 200 0 0 7) 1 (mkRGBA 100 0 0 9)) = 255 /\
  ((1 <=? 1)%float = true -> (1 <=? 0)%float = true ->
   LinearGradient uint8_zero 1 (mkRGBA 200 0 0 7) 1 (mkRGBA 100 0 0 9)
   = mkRGBA (R (mkRGBA 200 0 0 7)) (G (mkRGBA 200 0 0 7)) (B (mkRGBA 200 0 0 7)) 255) /\
  ((1 <=? 0)%float = true -> (1 <=? 1)%float = true ->
   LinearGradient uint8_zero 1 (mkRGBA 200 0 0 7) 1 (mkRGBA 100 0 0 9)
   = mkRGBA (R (mkRGBA 100 0 0 9)) (G (mkRGBA 100 0 0 9)) (B (mkRGBA 100 0 0 9)) 255) /\
  ((1 <=? 1)%float = true -> (1 <=? 1)%float = true ->
   LinearGradient uint8_zero 1 (mkRGBA 200 0 0 7) 1 (mkRGBA 100 0 0 9)
   = Add (mkRGBA 200 0 0 7) (mkRGBA 100 0 0 9)).
Proof.
  apply (LinearGradient_endpoints uint8_zero 1 1 (mkRGBA 200 0 0 7) (mkRGBA 100 0 0 9));
    unfold wf_color, is_uint8; simpl; lia.
Defined.

(** X17: [ClampU8] brings a value into [low, high] when [low <= high]
    and leaves a value of that interval unchanged; with the bounds 0 and
    255, the only ones it is called with, it changes no [uint8] value. *)
Theorem ClampU8_bounds (x low high : Z) :
  is_uint8 x ->
  ClampU8 x 0 255 = x /\
  (low <= high ->
   low <= ClampU8 x low high <= high /\
   ClampU8 x low high = Z.min (Z.max x low) high /\
   (low <= x <= high -> ClampU8 x low high = x) /\
   ClampU8 (ClampU8 x low high) low high = ClampU8 x low high).
Proof.
  intros Hx. unfold is_uint8 in Hx.
  assert (H : forall z, low <= high -> ClampU8 z low high = Z.min (Z.max z low) high).
  { intros z Hlh. unfold ClampU8. destruct (Z.ltb_spec z low); [lia|].
    destruct (Z.gtb_spec z high); lia. }
  split.
  - unfold ClampU8. destruct (Z.ltb_spec x 0); [lia|]. destruct (Z.gtb_spec x 255); lia.
  - intros Hlh. rewrite !H by assumption. lia.
Qed.

Lemma ClampU8_bounds_witness :
  ClampU8 200 0 255 = 200 /\
  (10 <= 20 ->
   10 <= ClampU8 200 10 20 <= 20 /\
   ClampU8 200 10 20 = Z.min (Z.max 200 10) 20 /\
   (10 <= 200 <= 20 -> ClampU8 200 10 20 = 200) /\
   ClampU8 (ClampU8 200 10 20) 10 20 = ClampU8 200 10 20).
Proof. apply (ClampU8_bounds 200 10 20). unfold is_uint8. lia. Defined.

(** ** Scaling by a factor between 0 and 1 *)

Lemma Zdigits2_bound a k : 0 <= a < 2 ^ k -> 0 <= k -> Zdigits2 a <= k.
Proof.
  intros [Ha Hk] Hk0. destruct a as [|p|p]; [simpl; lia | | lia].
  rewrite Zdigits2_log2. apply Z.log2_lt_pow2 in Hk; lia.
Qed.

(** Rounding a product [m * 2^e <= v] of a factor at most 1 and a channel
    value [v]: the integer part of the rounded product is at most [v]. *)
Lemma round_product_trunc (m e v : Z) (l : location) :
  0 < m -> 1 <= v <= 255 -> e <= -97 -> m <= v * 2 ^ (- e) ->
  exists z, SF_trunc (binary_round_aux prec emax false m e l) = Some z /\ 0 <= z <= v.
Proof.
  intros Hm Hv He Hle.
  destruct (binary_round_aux_spec false m e l ltac:(lia)) as (m2 & Hm2 & Hm3 & ->).
  cbv zeta in *. rewrite !fexp_eq in *.
  assert (Hpe : 0 < 2 ^ (- e)) by (apply Z.pow_pos_nonneg; lia).
  assert (HD : Zdigits2 m <= 8 - e).
  { apply Zdigits2_bound; [|lia]. split; [lia|].
    replace (8 - e) with (8 + - e) by lia. rewrite Z.pow_add_r by lia.
    change (2 ^ 8) with 256. nia. }
  pose proof (Zdigits2_nonneg m) as HD0.
  set (e1 := Z.max e (Z.max (Zdigits2 m + e - 53) (-1074))) in *.
  assert (He1 : e <= e1 <= -45) by (unfold e1; lia).
  replace (Z.max 0 (Z.max (Zdigits2 m + e - 53) (-1074) - e)) with (e1 - e) in * by (unfold e1; lia).
  set (P1 := 2 ^ (- e1)).
  assert (HP1 : 2 ^ 45 <= P1) by (unfold P1; apply Z.pow_le_mono_r; lia).
  change (2 ^ 45) with 35184372088832 in HP1.
  assert (Hsplit : 2 ^ (- e) = P1 * 2 ^ (e1 - e)).
  { unfold P1. rewrite <- Z.pow_add_r by lia. f_equal; lia. }
  assert (Hpn : 0 < 2 ^ (e1 - e)) by (apply Z.pow_pos_nonneg; lia).
  assert (Hm1 : 0 <= Z.shiftr m (e1 - e) <= v * P1).
  { rewrite Z.shiftr_div_pow2 by lia. split; [apply Z.div_pos; lia|].
    apply Z.div_le_upper_bound; [assumption|]. rewrite Hsplit in Hle.
    replace (2 ^ (e1 - e) * (v * P1)) with (v * (P1 * 2 ^ (e1 - e))) by ring. exact Hle. }
  assert (Hm2' : 0 <= m2 <= v * P1 + 1) by lia.
  assert (Hm2lt : m2 < (v + 1) * P1) by (rewrite Z.mul_add_distr_r; lia).
  assert (HD2 : Zdigits2 m2 <= 8 - e1).
  { apply Zdigits2_bound; [|lia]. split; [lia|].
    replace (8 - e1) with (8 + - e1) by lia. rewrite Z.pow_add_r by lia.
    change (2 ^ 8) with 256. fold P1. nia. }
  pose proof (Zdigits2_nonneg m2) as HD20.
  set (e3 := Z.max e1 (Z.max (Zdigits2 m2 + e1 - 53) (-1074))) in *.
  assert (He3 : e1 <= e3 <= -45) by (unfold e3; lia).
  replace (Z.max 0 (Z.max (Zdigits2 m2 + e1 - 53) (-1074) - e1)) with (e3 - e1) in *
    by (unfold e3; lia).
  destruct (Z.shiftr m2 (e3 - e1)) as [|p|p] eqn:E3; [| |lia].
  - exists 0. split; [reflexivity | lia].
  - destruct (Z.leb_spec e3 971) as [_|?]; [|lia].
    cbn [SF_trunc]. destruct (Z.leb_spec 0 e3) as [?|_]; [lia|].
    eexists. split; [reflexivity|].
    rewrite <- E3, Z.shiftr_shiftr by lia.
    replace (e3 - e1 + - e3) with (- e1) by lia.
    rewrite Z.shiftr_div_pow2 by lia. fold P1.
    split; [apply Z.div_pos; lia|].
    apply Z.lt_succ_r. apply Z.div_lt_upper_bound; [lia|].
    replace (P1 * Z.succ v) with ((v + 1) * P1) by ring. exact Hm2lt.
Qed.

Lemma float64_trunc_SF f : float64_trunc f = SF_trunc (Prim2SF f).
Proof. reflexivity. Qed.

Lemma channel_float v : is_uint8 v -> channel_float_check v = true.
Proof.
  intros Hv. apply (forallb_seqZ channel_float_check 0 256); [vm_compute; reflexivity | exact Hv].
Qed.

(** A factor in [0, 1] is a zero or a positive number [m * 2^e] with
    [e <= -52] and [m <= 2^(-e)]. *)
Lemma unit_factor_cases (lambda : float) :
  (0 <=? lambda)%float = true -> (lambda <=? 1)%float = true ->
  (exists s, Prim2SF lambda = S754_zero s) \/
  (exists m e, Prim2SF lambda = S754_finite false m e /\ e <= -52 /\ Z.pos m <= 2 ^ (- e)).
Proof.
  rewrite !FloatAxioms.leb_spec. intros H0 H1.
  pose proof (Prim2SF_valid lambda) as Hv.
  remember (Prim2SF 0) as c0 eqn:E0. vm_compute in E0. subst c0.
  remember (Prim2SF 1) as c1 eqn:E1. vm_compute in E1. subst c1.
  destruct (Prim2SF lambda) as [s|s| |s m e]; try discriminate.
  - left. eauto.
  - destruct s; discriminate.
  - destruct s; [discriminate|]. right. exists m, e. split; [reflexivity|].
    unfold SFleb, SFcompare in H1. change (Pos.compare_cont Eq) with Pos.compare in H1.
    unfold valid_binary, bounded, canonical_mantissa in Hv.
    apply andb_true_iff in Hv as [Hc _]. apply Z.eqb_eq in Hc. rewrite fexp_eq in Hc.
    pose proof (Zpos_lt_pow_digits m) as Hm.
    change (Zdigits2 (Z.pos m)) with (Z.pos (digits2_pos m)) in Hm.
    assert (Hd : Z.pos (digits2_pos m) <= 53) by lia.
    assert (Hm53 : Z.pos m < 2 ^ 53).
    { eapply Z.lt_le_trans; [exact Hm|]. apply Z.pow_le_mono_r; lia. }
    clear Hc Hm Hd H0.
    revert H1. destruct (Z.compare_spec e (-52)) as [Heq|Hlt|Hgt]; [| |discriminate].
    + subst e. change (2 ^ (- -52)) with 4503599627370496.
      destruct (Pos.compare_spec m 4503599627370496) as [Heq|Hlt|Hgt];
        intros H1; try discriminate; (split; [apply Z.le_refl|]).
      * rewrite Heq. apply Z.le_refl.
      * apply Z.lt_le_incl. exact Hlt.
    + intros _. split; [lia|].
      assert (2 ^ 53 <= 2 ^ (- e)) by (apply Z.pow_le_mono_r; lia). lia.
Qed.

Lemma scale_channel (lambda : float) (v : Z) :
  is_uint8 v -> (0 <=? lambda)%float = true -> (lambda <=? 1)%float = true ->
  exists z, float64_trunc (lambda * float64_of_int v)%float = Some z /\ 0 <= z <= v.
Proof.
  intros Hv H0 H1. pose proof (channel_float v Hv) as Hc. unfold channel_float_check in Hc.
  rewrite float64_trunc_SF, FloatAxioms.mul_spec. unfold is_uint8 in Hv.
  destruct (unit_factor_cases lambda H0 H1) as [[s ->]|(m & e & -> & He & Hm)].
  - destruct (Prim2SF (float64_of_int v)) as [sv|sv| |sv mv ev]; try discriminate;
      destruct sv; try discriminate; exists 0; (split; [reflexivity | lia]).
  - destruct (Prim2SF (float64_of_int v)) as [sv|sv| |sv mv ev]; try discriminate;
      destruct sv; try discriminate.
    + exists 0. split; [reflexivity | lia].
    + apply andb_true_iff in Hc as [Hc Hmv]. apply andb_true_iff in Hc as [Hev1 Hev2].
      apply Z.leb_le in Hev1, Hev2. apply Z.eqb_eq in Hmv.
      assert (Hpv : 0 < 2 ^ (- ev)) by (apply Z.pow_pos_nonneg; lia).
      assert (Hpe : 0 < 2 ^ (- e)) by (apply Z.pow_pos_nonneg; lia).
      assert (Hv1 : 1 <= v) by (destruct (Z.eq_dec v 0) as [->|]; [lia | lia]).
      apply round_product_trunc; [lia | lia | lia |].
      rewrite Pos2Z.inj_mul, Hmv.
      replace (- (e + ev)) with (- e + - ev) by lia. rewrite Z.pow_add_r by lia.
      replace (v * (2 ^ (- e) * 2 ^ (- ev))) with (2 ^ (- e) * (v * 2 ^ (- ev))) by ring.
      apply Z.mul_le_mono_nonneg_r; [lia | exact Hm].
Qed.

Lemma scale_channel_uint8 (lambda : float) (v : Z) :
  is_uint8 v -> (lambda =? lambda)%float = true ->
  exists z, 0 <= z <= v /\
    forall u, uint8_of_float64 u (ClampF64 lambda 0 1 * float64_of_int v)%float = z.
Proof.
  intros Hv Hl.
  destruct (ClampF64_between lambda 0 1 Hl eq_refl) as [H0 H1].
  destruct (scale_channel _ v Hv H0 H1) as (z & Hz & Hzv).
  exists z. split; [assumption|]. intros u. unfold uint8_of_float64. rewrite Hz.
  unfold is_uint8 in Hv.
  destruct (Z.leb_spec 0 z), (Z.leb_spec z 255); cbn [andb]; try lia; reflexivity.
Qed.

(** X18: for every [lambda] that is not a NaN, [ScalMult] darkens: each
    of R, G, B of the result is between 0 and the channel of the input
    (the rounded product never exceeds the channel value), and no
    conversion to [uint8] is left to the implementation. *)
Theorem ScalMult_darkens (u : float -> Z) (lambda : float) (c : RGBA) :
  wf_color c -> (lambda =? lambda)%float = true ->
  0 <= R (ScalMult u lambda c) <= R c /\
  0 <= G (ScalMult u lambda c) <= G c /\
  0 <= B (ScalMult u lambda c) <= B c /\
  forall u', ScalMult u' lambda c = ScalMult u lambda c.
Proof.
  intros (Hr & Hg & Hb & _) Hl.
  destruct (scale_channel_uint8 lambda (R c) Hr Hl) as (zr & Hzr & Er).
  destruct (scale_channel_uint8 lambda (G c) Hg Hl) as (zg & Hzg & Eg).
  destruct (scale_channel_uint8 lambda (B c) Hb Hl) as (zb & Hzb & Eb).
  assert (E : forall w, ScalMult w lambda c = mkRGBA zr zg zb (A c)).
  { intros w. unfold ScalMult. fold (ClampF64 lambda 0 1). rewrite Er, Eg, Eb. reflexivity. }
  rewrite E. cbn [R G B]. repeat split; try lia. intros u'. apply E.
Qed.

Lemma ScalMult_darkens_witness :
  0 <= R (ScalMult uint8_zero 0.25 (mkRGBA 200 77 1 42)) <= R (mkRGBA 200 77 1 42) /\
  0 <= G (ScalMult uint8_zero 0.25 (mkRGBA 200 77 1 42)) <= G (mkRGBA 200 77 1 42) /\
  0 <= B (ScalMult uint8_zero 0.25 (mkRGBA 200 77 1 42)) <= B (mkRGBA 200 77 1 42) /\
  forall u', ScalMult u' 0.25 (mkRGBA 200 77 1 42) = ScalMult uint8_zero 0.25 (mkRGBA 200 77 1 42).
Proof.
  apply (ScalMult_darkens uint8_zero 0.25 (mkRGBA 200 77 1 42)).
  - unfold wf_color, is_uint8. simpl. lia.
  - reflexivity.
Defined.

(** ** The ditherer at any palette size *)

Lemma binary_round_aux_opp m e l :
  binary_round_aux prec emax true m e l = SFopp (binary_round_aux prec emax false m e l).
Proof.
  unfold binary_round_aux. destruct (shr_fexp prec emax m e l) as [mrs1 e1].
  destruct (shr_fexp prec emax _ e1 loc_Exact) as [mrs2 e2].
  destruct (shr_m mrs2); [reflexivity | | reflexivity].
  destruct (e2 <=? emax - prec); reflexivity.
Qed.

Lemma binary_normalize_opp p :
  binary_normalize prec emax (Z.neg p) 0 false
  = SFopp (binary_normalize prec emax (Z.pos p) 0 false).
Proof.
  unfold binary_normalize, binary_round. destruct (shl_align p 0 _) as [mz ez].
  apply binary_round_aux_opp.
Qed.

(** The float of a negative [int] is the opposite of the float of its
    absolute value. *)
Lemma float64_of_int_opp z :
  0 < z < 2 ^ 63 -> float64_of_int (- z) = (- float64_of_int z)%float.
Proof.
  intros Hz. destruct z as [|p|p]; try lia. change (- Z.pos p) with (Z.neg p).
  unfold float64_of_int at 1. rewrite binary_normalize_opp.
  rewrite <- (float64_of_int_spec (Z.pos p)) by lia.
  rewrite <- FloatAxioms.opp_spec. apply SF2Prim_Prim2SF.
Qed.

(** The dithering step [255 / paletteSize] is a finite number for every
    palette size other than zero, also a negative one. *)
Lemma dither_step_finite_nonzero ps :
  GoInt.in_range ps -> ps <> 0 ->
  SF_finite (Prim2SF (255 / float64_of_int ps)%float) = true.
Proof.
  unfold GoInt.in_range, GoInt.min_int, GoInt.max_int. intros Hr Hne.
  destruct (Z.lt_ge_cases 0 ps) as [Hpos|Hneg].
  { apply dither_step_finite. unfold GoInt.max_int. lia. }
  destruct (Z.eq_dec ps (- 2 ^ 63)) as [->|Hmin]; [vm_compute; reflexivity|].
  replace ps with (- - ps) by lia.
  rewrite float64_of_int_opp, FloatAxioms.div_spec, FloatAxioms.opp_spec, float64_of_int_spec by lia.
  remember (Prim2SF 255) as c255 eqn:E. vm_compute in E. subst c255.
  destruct (binary_normalize_positive (- ps) ltac:(lia)) as [(mf & ef & -> & Hef)| ->].
  - cbn [SFopp negb]. apply SF64div_finite; [lia|].
    change (Zdigits2 (Z.pos 8972014882652160)) with 53. lia.
  - reflexivity.
Qed.

Lemma dithered_channel_defined v ps coef :
  is_uint8 v -> GoInt.in_range ps -> ps <> 0 -> SF_finite (Prim2SF coef) = true ->
  exists z, 0 <= z <= 255 /\
    forall u, uint8_of_float64 u
                (ClampF64 (float64_of_int v + 255 / float64_of_int ps * coef)%float 0 255) = z.
Proof.
  intros Hv Hps Hne Hcoef.
  set (k := (255 / float64_of_int ps * coef)%float).
  assert (Hk : SF_not_nan (Prim2SF k) = true).
  { unfold k. rewrite FloatAxioms.mul_spec.
    apply SF64mul_not_nan; [apply dither_step_finite_nonzero; assumption | assumption]. }
  assert (Hr : SF_not_nan (Prim2SF (float64_of_int v + k)%float) = true).
  { rewrite FloatAxioms.add_spec.
    apply SF64add_not_nan; [apply channel_finite; assumption | assumption]. }
  destruct (ClampF64_range _ Hr) as [H0 H255].
  destruct (float64_trunc_range _ H0 H255) as (z & Hz & Hzr).
  exists z. split; [assumption|]. intros u. unfold uint8_of_float64. rewrite Hz.
  destruct (Z.leb_spec 0 z), (Z.leb_spec z 255); cbn [andb]; try lia; reflexivity.
Qed.

(** X19: for every palette size other than zero, also a negative one,
    the colour that [BayerDithering] returns has channels in [0, 255] and
    alpha 255, and no conversion to [uint8] is left to the implementation:
    the result is the same for every implementation. *)
Theorem BayerDithering_defined (u : float -> Z) (c : RGBA) (x y paletteSize bayerMatSize : Z)
    (c' : RGBA) :
  wf_color c -> GoInt.in_range paletteSize -> paletteSize <> 0 ->
  BayerDithering u c x y paletteSize bayerMatSize = Ok c' ->
  wf_color c' /\ A c' = 255 /\
  forall u', BayerDithering u' c x y paletteSize bayerMatSize = Ok c'.
Proof.
  intros (Hr & Hg & Hb & _) Hps Hne. unfold BayerDithering.
  destruct (BayerCoefficient x y bayerMatSize) as [coef|] eqn:Ecoef; [|discriminate].
  cbn [mbind result_bind].
  assert (Hfin : SF_finite (Prim2SF coef) = true).
  { destruct (BayerCoefficient_table x y bayerMatSize) as (N & i & HN & E).
    rewrite E in Ecoef. apply (coefficient_at_finite N i coef HN Ecoef). }
  destruct (dithered_channel_defined (R c) paletteSize coef Hr Hps Hne Hfin) as (zr & Hzr & Er).
  destruct (dithered_channel_defined (G c) paletteSize coef Hg Hps Hne Hfin) as (zg & Hzg & Eg).
  destruct (dithered_channel_defined (B c) paletteSize coef Hb Hps Hne Hfin) as (zb & Hzb & Eb).
  rewrite Er, Eg, Eb. intros [= <-]. unfold wf_color, is_uint8. cbn [R G B A].
  split; [lia|]. split; [reflexivity|]. intros u'. rewrite Er, Eg, Eb. reflexivity.
Qed.

Lemma BayerDithering_defined_witness :
  wf_color (mkRGBA 8 98 248 255) /\ A (mkRGBA 8 98 248 255) = 255 /\
  forall u', BayerDithering u' (mkRGBA 10 100 250 7) 3 0 (-16) 4 = Ok (mkRGBA 8 98 248 255).
Proof.
  apply (BayerDithering_defined uint8_zero (mkRGBA 10 100 250 7) 3 0 (-16) 4).
  - unfold wf_color, is_uint8. simpl. lia.
  - unfold GoInt.in_range, GoInt.min_int, GoInt.max_int. lia.
  - discriminate.
  - vm_compute. reflexivity.
Defined.

Lemma zero_palette_checked N i v :
  supported_order N -> 0 <= i < N * N -> is_uint8 v -> zero_palette_check N i v = true.
Proof.
  intros HN Hi Hv.
  assert (H : forallb (fun i => forallb (zero_palette_check N i) (seqZ 0 256)) (seqZ 0 (N * N))
              = true).
  { destruct HN as [->|[->| ->]]; vm_compute; reflexivity. }
  pose proof (forallb_seqZ _ 0 (N * N) H i ltac:(lia)) as H'. cbv beta in H'.
  apply (forallb_seqZ _ 0 256 H' v Hv).
Qed.

Lemma zero_palette_channel u N i coef v :
  supported_order N -> coefficient_at N i = Ok coef -> is_uint8 v ->
  uint8_of_float64 u (ClampF64 (float64_of_int v + 255 / float64_of_int 0 * coef)%float 0 255)
  = if (coef <? 0)%float then 0 else if (0 <? coef)%float then 255 else wrap8 (u nan).
Proof.
  intros HN Hc Hv.
  assert (Hi : 0 <= i < N * N).
  { unfold coefficient_at in Hc.
    destruct (index (bayer_table N) i) as [t|] eqn:Ht; [|discriminate].
    apply index_Ok in Ht as [Hi0 Ht]. apply lookup_lt_Some in Ht.
    destruct HN as [->|[->| ->]]; simpl in Ht; lia. }
  pose proof (zero_palette_checked N i v HN Hi Hv) as H.
  unfold zero_palette_check in H. rewrite Hc in H. cbv zeta in H.
  unfold uint8_of_float64.
  set (f := ClampF64 (float64_of_int v + 255 / float64_of_int 0 * coef)%float 0 255) in *.
  destruct (coef <? 0)%float.
  - destruct (float64_trunc f) as [z|]; [|discriminate].
    apply Z.eqb_eq in H. subst z. reflexivity.
  - destruct (0 <? coef)%float.
    + destruct (float64_trunc f) as [z|]; [|discriminate].
      apply Z.eqb_eq in H. subst z. reflexivity.
    + rewrite float64_trunc_SF.
      destruct (Prim2SF f) eqn:E; try discriminate.
      assert (Hf : f = nan) by (apply Prim2SF_inj; rewrite E; reflexivity).
      rewrite Hf. reflexivity.
Qed.

(** X20: with a palette size of zero the dithering step is
    [255 / 0 = +infinity] and the source colour plays no part: at
    non-negative coordinates [BayerDithering] returns black where the Bayer
    coefficient is negative, white where it is positive, and where it is
    zero the three channels are the conversion of a NaN, which Go leaves to
    the implementation. *)
Theorem BayerDithering_zero_palette (u : float -> Z) (c : RGBA) (x y N : Z) :
  supported_order N -> 0 <= x -> 0 <= y -> wf_color c ->
  exists coef,
    BayerCoefficient x y N = Ok coef /\
    BayerDithering u c x y 0 N = Ok (zero_palette_color u coef).
Proof.
  intros HN Hx Hy (Hr & Hg & Hb & _). unfold BayerDithering.
  destruct (BayerCoefficient_defined x y N Hx Hy) as [coef Hc].
  exists coef. split; [assumption|]. rewrite Hc. cbn [mbind result_bind].
  rewrite BayerCoefficient_nonneg in Hc by assumption.
  rewrite !(zero_palette_channel u N _ coef) by eassumption.
  unfold zero_palette_color.
  destruct (coef <? 0)%float; [reflexivity|]. destruct (0 <? coef)%float; reflexivity.
Qed.

Lemma BayerDithering_zero_palette_witness :
  exists coef,
    BayerCoefficient 1 0 2 = Ok coef /\
    BayerDithering uint8_zero (mkRGBA 10 100 250 7) 1 0 0 2 = Ok (zero_palette_color uint8_zero coef).
Proof.
  apply (BayerDithering_zero_palette uint8_zero (mkRGBA 10 100 250 7) 1 0 2);
    [left; reflexivity | lia | lia | unfold wf_color, is_uint8; simpl; lia].
Defined.
